(** * Huffman image codec (p.cpp): a shallow embedding and its properties

    The development follows the C++ source function by function:
    [buildHuffmanTree], [generateHuffmanCodes], [readPGM], [writeCompressed],
    [readCompressed], [decompressImage], [writePGM] and [main].

    Conventions of the embedding
    - [unsigned char] and [int] values are integers in [Z]; [int]
      arithmetic is written with its 32-bit two's-complement wrap-around
      ([int_add]).  Pixels are only compared with 0 and used as keys, so no
      statement below needs the bound 255 of an [unsigned char].
    - a [std::string] is a [list ascii]; a file is the list of its bytes,
      an [int] taking four bytes, least significant first.
    - a [Node*] is a value of the inductive type [Node], whose constructor
      [nullptr] is the null pointer.
    - [std::unordered_map] is a [gmap]; the order in which a range-for visits
      it is left open by the language, and so is the way a
      [std::priority_queue] orders equal priorities.  Both are interfaces
      ([UnorderedIteration], [PriorityQueue]) with the guarantees of the
      standard library as laws, and one executable instance of each.
    - what the C++ standard leaves undefined, and the exceptions the library
      throws, are the faults of the result type [res].
    - an input file stream is the list of the bytes still to be read and
      the flag [good()]; formatted input is that of the "C" locale, which is
      the one [main] runs in.  A file that [main] names is given by its
      content, or by [None] when it cannot be opened.  Output files can
      always be written and memory can always be allocated. *)

From Stdlib Require Import ZArith Ascii String Lia.
From stdpp Require Import base option list gmap.

Open Scope Z_scope.

(** ** Outcomes of a call *)

Inductive fault : Type :=
| UndefinedBehaviour   (* null dereference, top() of an empty queue, read of an indeterminate value *)
| invalid_argument     (* thrown by the std::bitset string constructor *)
| length_error         (* thrown by the std::string fill constructor *)
| out_of_range         (* thrown by std::string::replace *)
| FuelExhausted.       (* the model's loop bound was too small; never the case for the bounds used below *)

Inductive res (A : Type) : Type :=
| Ok (a : A)
| Err (f : fault).
Arguments Ok {A} a.
Arguments Err {A} f.

#[global] Instance res_ret : MRet res := fun A a => Ok a.
#[global] Instance res_bind : MBind res := fun A B k m =>
  match m with
  | Ok a => k a
  | Err f => Err f
  end.

(** ** Machine integers *)

Definition INT_MAX : Z := 2 ^ 31 - 1.
Definition INT_MIN : Z := - 2 ^ 31.

(** The value of an integer once stored in a 32-bit [int]. *)
Definition wrap_int (z : Z) : Z := (z + 2 ^ 31) mod 2 ^ 32 - 2 ^ 31.

Definition int_add (a b : Z) : Z := wrap_int (a + b).

Definition in_int (z : Z) : Prop := INT_MIN ≤ z ≤ INT_MAX.

(** ** Strings of the characters '0' and '1' *)

Abbreviation cstring := (list ascii).

Definition str (s : string) : cstring := list_ascii_of_string s.

Definition ch0 : ascii := "0"%char.
Definition ch1 : ascii := "1"%char.

(** ** The tree *)

(** [struct Node { unsigned char pixel; int freq; Node *left, *right; }]
    seen through a [Node*]. *)
Inductive Node : Type :=
| nullptr
| node (pixel : Z) (freq : Z) (left right : Node).

(** [new Node(p, f)]: both children null. *)
Definition new_Node (p f : Z) : Node := node p f nullptr nullptr.

(** [n->freq]; the queue below only ever holds non-null pointers. *)
Definition freq_of (n : Node) : Z :=
  match n with
  | nullptr => 0
  | node _ f _ _ => f
  end.

(** [struct Compare]: [l->freq > r->freq]. *)
Definition Compare (l r : Node) : bool := freq_of l >? freq_of r.

(** ** The standard library's containers as interfaces *)

(** [std::priority_queue<A, std::vector<A>, comp>].  [pq_elems] is the bag of
    elements a queue holds; it is only used to state the laws.  [top] and
    [pop] of an empty queue are undefined.  [top] is an element that [comp]
    puts before no other element; [pop] removes that element. *)
Class PriorityQueue (A : Type) (comp : A → A → bool) : Type := {
  pq : Type;
  pq_new : pq;
  pq_push : A → pq → pq;
  pq_top : pq → res A;
  pq_pop : pq → res pq;
  pq_size : pq → nat;
  pq_elems : pq → list A;
  pq_elems_new : pq_elems pq_new = [];
  pq_elems_push x q : pq_elems (pq_push x q) ≡ₚ x :: pq_elems q;
  pq_size_elems q : pq_size q = length (pq_elems q);
  pq_top_empty q : pq_elems q = [] → pq_top q = Err UndefinedBehaviour;
  pq_pop_empty q : pq_elems q = [] → pq_pop q = Err UndefinedBehaviour;
  pq_top_pop q :
    pq_elems q ≠ [] →
    ∃ x q', pq_top q = Ok x ∧ pq_pop q = Ok q' ∧
            pq_elems q ≡ₚ x :: pq_elems q' ∧
            ∀ y, y ∈ pq_elems q → comp x y = false
}.

(** The order in which [for (const auto& pair : freq)] visits an
    [std::unordered_map<unsigned char, int>]: every entry once, in an order
    the library chooses. *)
Class UnorderedIteration : Type := {
  iterate : gmap Z Z → list (Z * Z);
  iterate_perm m : iterate m ≡ₚ map_to_list m
}.

(** ** buildHuffmanTree *)

Section Build.
Context `{PQ : PriorityQueue Node Compare} `{UI : UnorderedIteration}.

(** The first loop: one leaf per entry of the table. *)
Definition seed_heap (entries : list (Z * Z)) : pq :=
  foldl (fun minHeap pair => pq_push (new_Node pair.1 pair.2) minHeap) pq_new entries.

(** The body of the second loop. *)
Definition merge_step (minHeap : pq) : res pq :=
  left_ ← pq_top minHeap;
  minHeap ← pq_pop minHeap;
  right_ ← pq_top minHeap;
  minHeap ← pq_pop minHeap;
  let sum := node 0 (int_add (freq_of left_) (freq_of right_)) left_ right_ in
  Ok (pq_push sum minHeap).

(** [while (minHeap.size() > 1) { ... }] *)
Fixpoint merge_loop (fuel : nat) (minHeap : pq) : res pq :=
  if decide (1 < pq_size minHeap)%nat then
    match fuel with
    | O => Err FuelExhausted
    | S fuel' => minHeap' ← merge_step minHeap; merge_loop fuel' minHeap'
    end
  else Ok minHeap.

Definition buildHuffmanTree (freq : gmap Z Z) : res Node :=
  let minHeap := seed_heap (iterate freq) in
  minHeap ← merge_loop (pq_size minHeap) minHeap;
  pq_top minHeap.
End Build.

(** ** generateHuffmanCodes *)

Fixpoint generateHuffmanCodes (root : Node) (s : cstring)
    (huffmanCode : gmap Z cstring) : gmap Z cstring :=
  match root with
  | nullptr => huffmanCode
  | node pixel _ left_ right_ =>
      let huffmanCode :=
        if decide (pixel ≠ 0) then <[pixel := s]> huffmanCode else huffmanCode in
      let huffmanCode := generateHuffmanCodes left_ (s ++ [ch0]) huffmanCode in
      generateHuffmanCodes right_ (s ++ [ch1]) huffmanCode
  end.

(** ** decompressImage *)

(** The loop over the characters of [compressedData]; the state is
    [currentNode] and [decompressedImage]. *)
Fixpoint decompress_loop (root : Node) (bits : cstring)
    (currentNode : Node) (decompressedImage : list Z) : res (Node * list Z) :=
  match bits with
  | [] => Ok (currentNode, decompressedImage)
  | bit :: bits' =>
      match currentNode with
      | nullptr => Err UndefinedBehaviour
      | node _ _ left_ right_ =>
          let currentNode := if decide (bit = ch0) then left_ else right_ in
          match currentNode with
          | nullptr => Err UndefinedBehaviour
          | node pixel _ _ _ =>
              if decide (pixel ≠ 0)
              then decompress_loop root bits' root (decompressedImage ++ [pixel])
              else decompress_loop root bits' currentNode decompressedImage
          end
      end
  end.

Definition decompressImage (compressedData : cstring) (root : Node)
    (width height : Z) : res (list Z) :=
  '(_, decompressedImage) ← decompress_loop root compressedData root [];
  Ok decompressedImage.

(** ** The codec part of main *)

(** [freq[pixel]++] for every pixel of the image. *)
Definition count_frequencies (image : list Z) : gmap Z Z :=
  foldl (fun freq pixel => <[pixel := int_add (default 0 (freq !! pixel)) 1]> freq)
        ∅ image.

(** [huffmanCode[pixel]]: [operator[]] reads a missing key as the empty string. *)
Definition code_of (huffmanCode : gmap Z cstring) (pixel : Z) : cstring :=
  default [] (huffmanCode !! pixel).

(** [compressedData += huffmanCode[pixel]] for every pixel of the image. *)
Definition encode (huffmanCode : gmap Z cstring) (image : list Z) : cstring :=
  foldl (fun compressedData pixel => compressedData ++ code_of huffmanCode pixel)
        [] image.

(** ** std::bitset<8> and the std::string operations used *)

Definition bit_value (c : ascii) : res Z :=
  if decide (c = ch0) then Ok 0
  else if decide (c = ch1) then Ok 1
  else Err invalid_argument.

(** The number a list of bits denotes, first bit most significant. *)
Definition binary_value (bits : list Z) : Z :=
  foldl (fun acc b => 2 * acc + b) 0 bits.

(** [std::bitset<8>(s).to_ulong()]: every character must be '0' or '1'; the
    last of the (at most eight) characters used is bit 0. *)
Definition bitset8_of_string (s : cstring) : res Z :=
  bits ← mapM bit_value s;
  Ok (binary_value (take 8 bits)).

(** [std::bitset<8>(byte).to_string()]: bit 7 first. *)
Definition bitset8_to_string (byte : Z) : cstring :=
  map (fun k => if Z.testbit byte k then ch1 else ch0) [7; 6; 5; 4; 3; 2; 1; 0].

(** [s.substr(pos, n)] for [pos <= s.size()]. *)
Definition substr (s : cstring) (pos n : nat) : cstring := take n (drop pos s).

(** [s.replace(pos, n, t)]: the characters from [pos], at most [n] of them,
    give way to the whole of [t]. *)
Definition string_replace (s : cstring) (pos : Z) (n : nat) (t : cstring) : res cstring :=
  if decide (0 ≤ pos ≤ Z.of_nat (length s))
  then Ok (take (Z.to_nat pos) s ++ t ++ drop (Z.to_nat pos + n) s)
  else Err out_of_range.

(** ** The container file *)

(** The four bytes of an [int] in memory (little-endian, 32 bits). *)
Definition int_bytes (x : Z) : list Z :=
  let u := x mod 2 ^ 32 in
  [u mod 256; (u / 2 ^ 8) mod 256; (u / 2 ^ 16) mod 256; (u / 2 ^ 24) mod 256].

Definition int_of_bytes (b0 b1 b2 b3 : Z) : Z :=
  wrap_int (b0 + b1 * 2 ^ 8 + b2 * 2 ^ 16 + b3 * 2 ^ 24).

(** [for (size_t i = 0; i < compressedData.size(); i += 8)] *)
Fixpoint write_payload (fuel : nat) (i : nat) (compressedData : cstring) : res (list Z) :=
  if decide (i < length compressedData)%nat then
    match fuel with
    | O => Err FuelExhausted
    | S fuel' =>
        byte ← bitset8_of_string (substr compressedData i 8);
        rest ← write_payload fuel' (i + 8) compressedData;
        Ok (byte :: rest)
    end
  else Ok [].

(** The bytes of the file that [writeCompressed] leaves. *)
Definition writeCompressed (compressedData : cstring) (width height : Z) : res (list Z) :=
  let bitsCount := wrap_int (Z.of_nat (length compressedData)) in
  payload ← write_payload (length compressedData) 0 compressedData;
  Ok (int_bytes bitsCount ++ int_bytes width ++ int_bytes height ++ payload).

(** [infile.read(reinterpret_cast<char*>(&x), sizeof(x))]; a short file
    leaves [x] indeterminate. *)
Definition read_int (file : list Z) : res (Z * list Z) :=
  match file with
  | b0 :: b1 :: b2 :: b3 :: rest => Ok (int_of_bytes b0 b1 b2 b3, rest)
  | _ => Err UndefinedBehaviour
  end.

(** [for (int i = 0; i < bitsCount; i += 8)] *)
Fixpoint read_payload (fuel : nat) (i bitsCount : Z) (compressedData : cstring)
    (file : list Z) : res cstring :=
  if decide (i < bitsCount) then
    match fuel with
    | O => Err FuelExhausted
    | S fuel' =>
        match file with
        | [] => Err UndefinedBehaviour
        | byte :: file' =>
            compressedData ← string_replace compressedData i 8 (bitset8_to_string byte);
            read_payload fuel' (int_add i 8) bitsCount compressedData file'
        end
    end
  else Ok compressedData.

(** What [readCompressed] returns and stores in its reference parameters:
    the string, [width], [height] and [bitsCount]. *)
Definition readCompressed (file : list Z) : res (cstring * Z * Z * Z) :=
  '(bitsCount, file) ← read_int file;
  '(width, file) ← read_int file;
  '(height, file) ← read_int file;
  if decide (bitsCount < 0) then Err length_error
  else
    let compressedData := replicate (Z.to_nat bitsCount) ch0 in
    compressedData ← read_payload (Z.to_nat bitsCount) 0 bitsCount compressedData file;
    Ok (compressedData, width, height, bitsCount).

(** [main] from the frequency count to the decompressed image. *)
Definition compress_decompress `{PQ : PriorityQueue Node Compare} `{UI : UnorderedIteration}
    (image : list Z) (width height : Z) : res (list Z) :=
  let freq := count_frequencies image in
  root ← buildHuffmanTree freq;
  let huffmanCode := generateHuffmanCodes root [] ∅ in
  let compressedData := encode huffmanCode image in
  file ← writeCompressed compressedData width height;
  '(readCompressedData, width, height, bitsCount) ← readCompressed file;
  decompressImage readCompressedData root width height.

(** ** Executable instances of the library interfaces *)

(** A queue kept as a plain list; [top] is the first element of least
    frequency. *)
Fixpoint extract_top (l : list Node) : option (Node * list Node) :=
  match l with
  | [] => None
  | x :: l' =>
      match extract_top l' with
      | None => Some (x, [])
      | Some (m, rest) => if Compare x m then Some (m, x :: rest) else Some (x, l')
      end
  end.

Definition list_top (l : list Node) : res Node :=
  match extract_top l with
  | Some (m, _) => Ok m
  | None => Err UndefinedBehaviour
  end.

Definition list_pop (l : list Node) : res (list Node) :=
  match extract_top l with
  | Some (_, rest) => Ok rest
  | None => Err UndefinedBehaviour
  end.

(** ** The construction as the specification words it *)

(** The leaf a table entry seeds the queue with. *)
Definition leaf_of (pair : Z * Z) : Node := new_Node pair.1 pair.2.

(** The node that replaces the two extracted ones: the first extracted is
    its left child, the second its right child, its frequency their ([int])
    sum. *)
Definition combined (first second : Node) : Node :=
  node 0 (int_add (freq_of first) (freq_of second)) first second.

(** [spec_merge bag root]: from the bag of queued nodes, repeatedly taking
    out a node of lowest frequency, then a node of lowest frequency among
    the others, and putting their combination back, leaves [root] alone. *)
Inductive spec_merge : list Node → Node → Prop :=
| spec_merge_root root : spec_merge [root] root
| spec_merge_combine bag first second rest root :
    bag ≡ₚ first :: second :: rest →
    (∀ y, y ∈ bag → freq_of first ≤ freq_of y) →
    (∀ y, y ∈ second :: rest → freq_of second ≤ freq_of y) →
    spec_merge (combined first second :: rest) root →
    spec_merge bag root.

Definition spec_buildHuffmanTree (freq : gmap Z Z) (root : Node) : Prop :=
  ∃ bag, bag ≡ₚ leaf_of <$> map_to_list freq ∧ spec_merge bag root.

(** ** Trees, paths and code tables *)

(** The shape of the trees the construction makes: a leaf has no child, an
    internal node has pixel 0 and two children. *)
Inductive huffman_tree : Node → Prop :=
| huffman_leaf p f : huffman_tree (node p f nullptr nullptr)
| huffman_internal f l r :
    huffman_tree l → huffman_tree r → huffman_tree (node 0 f l r).

(** [leaf_at t path a]: following [path] from [t] ('0' to the left child,
    '1' to the right child) ends on a leaf whose pixel is [a]. *)
Inductive leaf_at : Node → cstring → Z → Prop :=
| leaf_here a f : leaf_at (node a f nullptr nullptr) [] a
| leaf_left p f l r path a :
    leaf_at l path a → leaf_at (node p f l r) (ch0 :: path) a
| leaf_right p f l r path a :
    leaf_at r path a → leaf_at (node p f l r) (ch1 :: path) a.

(** No code of the table is a prefix of the code of another symbol. *)
Definition prefix_free (huffmanCode : gmap Z cstring) : Prop :=
  ∀ a b ca cb,
    a ≠ b → huffmanCode !! a = Some ca → huffmanCode !! b = Some cb →
    ¬ ca `prefix_of` cb ∧ ¬ cb `prefix_of` ca.

(** The node a cursor moves to from [n] on one character, as in
    [decompressImage]: '0' to the left child, any other character to the
    right child. *)
Definition child (n : Node) (bit : ascii) : Node :=
  match n with
  | nullptr => nullptr
  | node _ _ l r => if decide (bit = ch0) then l else r
  end.

(** The node a cursor reaches from [n] along [path]. *)
Fixpoint walk (n : Node) (path : cstring) : Node :=
  match path with
  | [] => n
  | bit :: path' => walk (child n bit) path'
  end.

(** An internal node of a tree of the construction. *)
Definition is_internal (n : Node) : Prop :=
  ∃ f l r, n = node 0 f l r ∧ huffman_tree l ∧ huffman_tree r.

(** The pixels of the leaves of a tree, left to right. *)
Fixpoint symbols_of (t : Node) : list Z :=
  match t with
  | nullptr => []
  | node p _ l r =>
      match l, r with
      | nullptr, nullptr => [p]
      | _, _ => symbols_of l ++ symbols_of r
      end
  end.

(** ** A reference run for tables without ties *)

(** Insertion into a list kept in ascending order of frequency. *)
Fixpoint insert_by_freq (x : Node) (l : list Node) : list Node :=
  match l with
  | [] => [x]
  | y :: l' => if Compare x y then y :: insert_by_freq x l' else x :: l
  end.

Fixpoint strictly_ascending (l : list Node) : bool :=
  match l with
  | [] => true
  | x :: l' =>
      match l' with
      | [] => true
      | y :: _ => (freq_of x <? freq_of y) && strictly_ascending l'
      end
  end.

(** The construction on a list in strictly ascending order of frequency;
    [None] as soon as two queued nodes have the same frequency. *)
Fixpoint merge_sorted (fuel : nat) (l : list Node) : option Node :=
  match l with
  | [] => None
  | x :: l' =>
      match l' with
      | [] => Some x
      | y :: rest =>
          match fuel with
          | O => None
          | S fuel' =>
              if strictly_ascending l
              then merge_sorted fuel' (insert_by_freq (combined x y) rest)
              else None
          end
      end
  end.

(** ** Quantities of the specification *)

(** The sum over the symbols of the table of frequency times code length. *)
Definition weighted_code_length (freq : gmap Z Z) (huffmanCode : gmap Z cstring) : Z :=
  map_fold (fun symbol count total =>
              total + count * Z.of_nat (length (code_of huffmanCode symbol))) 0 freq.

Definition total_frequency (freq : gmap Z Z) : Z :=
  map_fold (fun _ count total => total + count) 0 freq.

(** The table {A:5, B:9, C:12, D:13, E:16, F:45}, the letters as their
    character codes. *)
Definition classic_entries : list (Z * Z) :=
  [(65, 5); (66, 9); (67, 12); (68, 13); (69, 16); (70, 45)].

Definition classic_table : gmap Z Z := list_to_map classic_entries.

(** The tree of the classic table. *)
Definition classic_tree : Node :=
  node 0 100
    (new_Node 70 45)
    (node 0 55
       (node 0 25 (new_Node 67 12) (new_Node 68 13))
       (node 0 30 (node 0 14 (new_Node 65 5) (new_Node 66 9)) (new_Node 69 16))).

(** An image whose table {1:1, 2:3, 3:8} has no ties, and its tree; the
    codes are 1 -> 00, 2 -> 01, 3 -> 1, sixteen bits in all. *)
Definition sample_image : list Z := [3; 3; 3; 3; 3; 3; 3; 3; 2; 2; 2; 1].

Definition sample_tree : Node :=
  node 0 12 (node 0 4 (new_Node 1 1) (new_Node 2 3)) (new_Node 3 8).

(** ** What is read back from a written file *)

Definition is_bit (c : ascii) : Prop := c = ch0 ∨ c = ch1.

Definition bit_char (b : bool) : ascii := if b then ch1 else ch0.

Definition bit_Z (b : bool) : Z := if b then 1 else 0.

(** A chunk of at most eight characters as the eight characters of its
    byte: zeros in front. *)
Definition pad8 (chunk : cstring) : cstring :=
  replicate (8 - length chunk) ch0 ++ chunk.

(** The string [readCompressed] returns for the file [writeCompressed] made
    from [s]: the whole chunks of eight as they are, a shorter last chunk
    behind its padding. *)
Definition unpacked (s : cstring) : cstring :=
  let whole := (8 * (length s / 8))%nat in
  take whole s ++ (if decide (length s mod 8 = 0)%nat then [] else pad8 (drop whole s)).

(** The number of bytes a last chunk takes: none when it is empty. *)
Definition last_bytes (part : cstring) : nat :=
  match part with
  | [] => 0
  | _ :: _ => 1
  end.

Definition padded_last (part : cstring) : cstring :=
  match part with
  | [] => []
  | _ :: _ => pad8 part
  end.

(** The sum of the frequencies of the nodes of a bag. *)
Definition bag_frequency (bag : list Node) : Z :=
  foldr (fun n total => freq_of n + total) 0 bag.

(** The number of samples of an image that equal [p]. *)
Definition occurrences (p : Z) (image : list Z) : Z :=
  Z.of_nat (length (filter (fun x => x = p) image)).

(** Every internal node carries the exact sum of the frequencies of its two
    children. *)
Inductive sums_exact : Node → Prop :=
| sums_exact_leaf p f : sums_exact (node p f nullptr nullptr)
| sums_exact_internal p l r :
    sums_exact l → sums_exact r → sums_exact (node p (freq_of l + freq_of r) l r).

(** ** The image files: std::ifstream, readPGM and writePGM *)

(** An open [std::ifstream]: the bytes not yet read, and whether the stream
    is still [good()].  Once it is not, every later operation on it does
    nothing; [readPGM] never clears the state. *)
Record istream : Type := { good : bool; rest : list Z }.

Definition failed_stream : istream := {| good := false; rest := [] |}.

(** [std::isspace] in the "C" locale. *)
Definition isspace (c : Z) : bool := (c =? 32) || ((9 <=? c) && (c <=? 13)).

Definition isdigit (c : Z) : bool := (48 <=? c) && (c <=? 57).

Fixpoint skipws (s : list Z) : list Z :=
  match s with
  | [] => []
  | c :: s' => if isspace c then skipws s' else s
  end.

(** The sentry of a formatted input: leading white space is skipped; it
    fails when the stream is not good or ends before a character comes. *)
Definition sentry (f : istream) : option (list Z) :=
  if good f then
    match skipws (rest f) with
    | [] => None
    | c :: s => Some (c :: s)
    end
  else None.

(** The stream after an extraction that stopped in front of [s]: reaching
    the end of the file sets [eofbit]. *)
Definition after_token (s : list Z) : istream :=
  {| good := match s with [] => false | _ :: _ => true end; rest := s |}.

(** The characters up to the next white space, and what follows them. *)
Fixpoint take_token (s : list Z) : list Z * list Z :=
  match s with
  | [] => ([], [])
  | c :: s' =>
      if isspace c then ([], s)
      else let '(token, s'') := take_token s' in (c :: token, s'')
  end.

(** [infile >> format] for an empty [std::string format]. *)
Definition extract_string (f : istream) : list Z * istream :=
  match sentry f with
  | None => ([], failed_stream)
  | Some s => let '(token, s') := take_token s in (token, after_token s')
  end.

(** The digits at the head of [s]: their value on top of [acc], whether
    there was any, and what follows them. *)
Fixpoint parse_digits (s : list Z) (acc : Z) (found : bool) : Z * bool * list Z :=
  match s with
  | [] => (acc, found, [])
  | c :: s' =>
      if isdigit c then parse_digits s' (10 * acc + (c - 48)) true
      else (acc, found, s)
  end.

(** [infile >> x] for an [int x] whose value so far is [old]; [None] is an
    indeterminate value.  A failing sentry leaves [x] as it was; a field
    without digits stores 0 and a value out of range the nearest bound,
    both setting [failbit]. *)
Definition extract_int (f : istream) (old : option Z) : option Z * istream :=
  match sentry f with
  | None => (old, failed_stream)
  | Some s =>
      let '(negative, s1) :=
        match s with
        | 45 :: t => (true, t)
        | 43 :: t => (false, t)
        | _ => (false, s)
        end in
      let '(v, found, s2) := parse_digits s1 0 false in
      if found then
        let l := if (negative : bool) then - v else v in
        if decide (l < INT_MIN) then (Some INT_MIN, failed_stream)
        else if decide (INT_MAX < l) then (Some INT_MAX, failed_stream)
        else (Some l, after_token s2)
      else (Some 0, failed_stream)
  end.

(** [infile.ignore()]: one character is dropped. *)
Definition stream_ignore (f : istream) : istream :=
  if good f then
    match rest f with
    | [] => failed_stream
    | _ :: s => {| good := true; rest := s |}
    end
  else failed_stream.

(** [image.resize(n)] for [0 <= n]. *)
Definition resize (image : list Z) (n : nat) : list Z :=
  take n image ++ replicate (n - length image) 0.

(** [infile.read(image.data(), image.size())]: the bytes that are there
    overwrite the front of the buffer. *)
Definition stream_read (f : istream) (image : list Z) : list Z :=
  if good f then
    let got := take (length image) (rest f) in
    got ++ drop (length got) image
  else image.

Definition int_mul (a b : Z) : Z := wrap_int (a * b).

(** The characters "P5". *)
Definition P5 : list Z := [80; 53].

(** [readPGM]: [file] is the content of the file, [None] when it cannot be
    opened; [image], [width] and [height] are the values of the reference
    parameters at the call, an indeterminate [int] being [None].  The result
    is the returned flag and the three parameters at the return.  A negative
    [width * height] is a size beyond [max_size()], for which [resize]
    throws [std::length_error]; reading an indeterminate [int] is
    undefined. *)
Definition readPGM (file : option (list Z)) (image : list Z) (width height : option Z)
    : res (bool * list Z * option Z * option Z) :=
  match file with
  | None => Ok (false, image, width, height)
  | Some bytes =>
      let infile := {| good := true; rest := bytes |} in
      let '(format, infile) := extract_string infile in
      if decide (format ≠ P5) then Ok (false, image, width, height)
      else
        let '(width, infile) := extract_int infile width in
        let '(height, infile) := extract_int infile height in
        let '(maxval, infile) := extract_int infile None in
        let infile := stream_ignore infile in
        match width, height with
        | Some w, Some h =>
            let n := int_mul w h in
            if decide (n < 0) then Err length_error
            else
              let image := resize image (Z.to_nat n) in
              Ok (true, stream_read infile image, Some w, Some h)
        | _, _ => Err UndefinedBehaviour
        end
  end.

(** The decimal digits of [n >= 0], most significant first, in front of
    [acc]. *)
Fixpoint digits_acc (fuel : nat) (n : Z) (acc : list Z) : list Z :=
  match fuel with
  | O => acc
  | S fuel' =>
      let acc := (48 + n mod 10) :: acc in
      if n / 10 =? 0 then acc else digits_acc fuel' (n / 10) acc
  end.

(** [outfile << n] for an [int n]. *)
Definition decimal (n : Z) : list Z :=
  if n <? 0 then 45 :: digits_acc (S (Z.to_nat (Z.log2 (- n)))) (- n) []
  else digits_acc (S (Z.to_nat (Z.log2 n))) n [].

(** The bytes of the file [writePGM] leaves: "P5\n", the width, a blank,
    the height, "\n255\n", and the samples. *)
Definition writePGM (image : list Z) (width height : Z) : list Z :=
  P5 ++ [10] ++ decimal width ++ [32] ++ decimal height ++ [10; 50; 53; 53; 10] ++ image.

(** An image with a sample of value 0, and its tree. *)
Definition image_with_zero : list Z := [0; 5; 5; 5; 5; 5; 5; 5; 5].

Definition tree_with_zero : Node := node 0 9 (new_Node 0 1) (new_Node 5 8).

(** White space only. *)
Definition blank (ws : list Z) : Prop := Forall (fun c => isspace c = true) ws.

(** The first word of the file is "P5": it may follow white space, and white
    space or the end of the file follows it. *)
Definition has_magic (bytes : list Z) : Prop :=
  ∃ ws t, blank ws ∧ bytes = ws ++ P5 ++ t ∧
          (t = [] ∨ ∃ c t', t = c :: t' ∧ isspace c = true).

(** A PGM file in any layout: white space [ws0] in front, [ws1], [ws2] and
    [ws3] between the four header fields, one character [c] after the sample
    maximum [m], then the samples. *)
Definition pgm_file (ws0 ws1 ws2 ws3 : list Z) (w h m c : Z) (pixels : list Z) : list Z :=
  ws0 ++ P5 ++ ws1 ++ decimal w ++ ws2 ++ decimal h ++ ws3 ++ decimal m ++ c :: pixels.

Definition separators (ws0 ws1 ws2 ws3 : list Z) (c : Z) : Prop :=
  blank ws0 ∧ blank ws1 ∧ blank ws2 ∧ blank ws3 ∧
  ws1 ≠ [] ∧ ws2 ≠ [] ∧ ws3 ≠ [] ∧ isdigit c = false.

(** ** main *)

(** What a run of [main] leaves: the value returned, the two files written
    and the two sizes printed.  The ratio printed after them is a [double]
    and is not part of the embedding. *)
Record run : Type := {
  exit_code : Z;
  output_huff : option (list Z);
  decompressed_pgm : option (list Z);
  sizes : option (nat * nat)
}.

(** [main], [input] being the content of the input file ([None] when it
    cannot be opened). *)
Definition main `{PQ : PriorityQueue Node Compare} `{UI : UnorderedIteration}
    (input : option (list Z)) : res run :=
  '(ok, image, width, height) ← readPGM input [] None None;
  if negb ok then
    Ok {| exit_code := 1; output_huff := None; decompressed_pgm := None; sizes := None |}
  else
    match width, height with
    | Some width, Some height =>
        let freq := count_frequencies image in
        root ← buildHuffmanTree freq;
        let huffmanCode := generateHuffmanCodes root [] ∅ in
        let compressedData := encode huffmanCode image in
        file ← writeCompressed compressedData width height;
        '(readCompressedData, width, height, bitsCount) ← readCompressed file;
        decompressedImage ← decompressImage readCompressedData root width height;
        let pgm := writePGM decompressedImage width height in
        Ok {| exit_code := 0;
              output_huff := Some file;
              decompressed_pgm := Some pgm;
              sizes := Some (length (default [] input), length file) |}
    | _, _ => Err UndefinedBehaviour
    end.

(** * Properties *)

(** ** The list queue meets the interface *)

Lemma Compare_false (x y : Node) : Compare x y = false ↔ freq_of x ≤ freq_of y.
Proof. unfold Compare. rewrite Z.gtb_ltb, Z.ltb_ge. reflexivity. Qed.

Lemma extract_top_nil (l : list Node) : extract_top l = None ↔ l = [].
Proof.
  destruct l as [|x l]; simpl; [tauto|].
  destruct (extract_top l) as [[m rest]|]; [destruct (Compare x m)|]; split; discriminate.
Qed.

Lemma extract_top_spec (l : list Node) (m : Node) (rest : list Node) :
  extract_top l = Some (m, rest) →
  l ≡ₚ m :: rest ∧ ∀ y, y ∈ l → Compare m y = false.
Proof.
  revert m rest. induction l as [|x l IH]; intros m rest; simpl; [discriminate|].
  destruct (extract_top l) as [[m' rest']|] eqn:E.
  - destruct (IH _ _ eq_refl) as [Hp Hle].
    destruct (Compare x m') eqn:C; intros [= <- <-].
    + split; [rewrite Hp; apply Permutation_swap|].
      intros y [->|Hy]%elem_of_cons; [|auto].
      apply Compare_false. unfold Compare in C. lia.
    + split; [reflexivity|].
      intros y [->|Hy]%elem_of_cons; apply Compare_false; [lia|].
      apply Compare_false in C. specialize (Hle _ Hy). apply Compare_false in Hle. lia.
  - apply extract_top_nil in E as ->. intros [= <- <-]. split; [reflexivity|].
    intros y ->%list_elem_of_singleton. apply Compare_false. lia.
Qed.

Lemma list_queue_top_pop (q : list Node) :
  q ≠ [] →
  ∃ x q', list_top q = Ok x ∧ list_pop q = Ok q' ∧ q ≡ₚ x :: q' ∧
          ∀ y, y ∈ q → Compare x y = false.
Proof.
  intros Hne. unfold list_top, list_pop.
  destruct (extract_top q) as [[m rest]|] eqn:E.
  - destruct (extract_top_spec _ _ _ E). eauto 10.
  - apply extract_top_nil in E. contradiction.
Qed.

Lemma list_queue_top_empty (q : list Node) : q = [] → list_top q = Err UndefinedBehaviour.
Proof. intros ->. reflexivity. Qed.

Lemma list_queue_pop_empty (q : list Node) : q = [] → list_pop q = Err UndefinedBehaviour.
Proof. intros ->. reflexivity. Qed.

#[global] Instance ListQueue : PriorityQueue Node Compare := {|
  pq := list Node;
  pq_new := [];
  pq_push x q := x :: q;
  pq_top := list_top;
  pq_pop := list_pop;
  pq_size q := length q;
  pq_elems q := q;
  pq_elems_new := eq_refl;
  pq_elems_push x q := reflexivity (x :: q);
  pq_size_elems q := eq_refl;
  pq_top_empty := list_queue_top_empty;
  pq_pop_empty := list_queue_pop_empty;
  pq_top_pop := list_queue_top_pop
|}.

(** Iteration in the order of [map_to_list]. *)
#[global] Instance KeyOrder : UnorderedIteration := {|
  iterate := map_to_list;
  iterate_perm m := reflexivity (map_to_list m)
|}.

(** ** buildHuffmanTree against the specification's construction *)

Lemma bind_Ok {A B} (m : res A) (k : A → res B) (a : A) :
  m = Ok a → (m ≫= k) = k a.
Proof. intros ->. reflexivity. Qed.

Lemma spec_merge_perm (bag bag' : list Node) (root : Node) :
  bag ≡ₚ bag' → spec_merge bag root → spec_merge bag' root.
Proof.
  intros Hp Hm. destruct Hm as [root|bag first second rest root Hbag Hf Hs Hm].
  - apply Permutation_singleton_l in Hp as <-. constructor.
  - apply spec_merge_combine with first second rest; [by rewrite <- Hp| |done..].
    intros y Hy. apply Hf. by rewrite Hp.
Qed.

Section BuildFacts.
Context `{PQ : PriorityQueue Node Compare} `{UI : UnorderedIteration}.

Lemma seed_heap_from (entries : list (Z * Z)) (q : pq) :
  pq_elems (foldl (fun minHeap pair => pq_push (new_Node pair.1 pair.2) minHeap) q entries)
  ≡ₚ (leaf_of <$> entries) ++ pq_elems q.
Proof.
  revert q. induction entries as [|e entries IH]; intros q; simpl; [done|].
  rewrite IH, pq_elems_push. symmetry. apply Permutation_middle.
Qed.

Lemma seed_heap_elems (entries : list (Z * Z)) :
  pq_elems (seed_heap entries) ≡ₚ leaf_of <$> entries.
Proof.
  unfold seed_heap. rewrite seed_heap_from, pq_elems_new. by rewrite app_nil_r.
Qed.

Lemma merge_step_spec (q : pq) :
  (1 < length (pq_elems q))%nat →
  ∃ first second q2,
    merge_step q = Ok (pq_push (combined first second) q2) ∧
    pq_elems q ≡ₚ first :: second :: pq_elems q2 ∧
    (∀ y, y ∈ pq_elems q → freq_of first ≤ freq_of y) ∧
    (∀ y, y ∈ second :: pq_elems q2 → freq_of second ≤ freq_of y).
Proof.
  intros Hlen.
  destruct (pq_top_pop q) as (first & q1 & Ht1 & Hp1 & He1 & Hm1).
  { intros E. rewrite E in Hlen. simpl in Hlen. lia. }
  destruct (pq_top_pop q1) as (second & q2 & Ht2 & Hp2 & He2 & Hm2).
  { intros E. rewrite He1, E in Hlen. simpl in Hlen. lia. }
  exists first, second, q2. split; [|split; [|split]].
  - unfold merge_step.
    rewrite (bind_Ok _ _ _ Ht1), (bind_Ok _ _ _ Hp1), (bind_Ok _ _ _ Ht2), (bind_Ok _ _ _ Hp2).
    reflexivity.
  - by rewrite He1, He2.
  - intros y Hy. by apply Compare_false, Hm1.
  - intros y Hy. apply Compare_false, Hm2. by rewrite He2.
Qed.

Lemma merge_loop_spec (fuel : nat) (q : pq) :
  (length (pq_elems q) ≤ fuel)%nat → pq_elems q ≠ [] →
  ∃ q' root, merge_loop fuel q = Ok q' ∧ pq_elems q' = [root] ∧
             spec_merge (pq_elems q) root.
Proof.
  revert q. induction fuel as [|fuel IH]; intros q Hfuel Hne.
  { destruct (pq_elems q); [done|simpl in Hfuel; lia]. }
  simpl. rewrite pq_size_elems. case_decide as Hsz.
  - destruct (merge_step_spec q Hsz) as (first & second & q2 & Hstep & Hq & Hf & Hs).
    rewrite (bind_Ok _ _ _ Hstep).
    assert (Hlen : length (pq_elems q) = S (S (length (pq_elems q2)))) by by rewrite Hq.
    destruct (IH (pq_push (combined first second) q2)) as (q' & root & Hloop & Hq' & Hm).
    { rewrite pq_elems_push. simpl. lia. }
    { intros E. pose proof (pq_elems_push (combined first second) q2) as Hp.
      rewrite E in Hp. by apply Permutation_nil_cons in Hp. }
    exists q', root. split; [done|split; [done|]].
    apply spec_merge_combine with first second (pq_elems q2); [done..|].
    by apply spec_merge_perm with (pq_elems (pq_push (combined first second) q2));
      [apply pq_elems_push|].
  - destruct (pq_elems q) as [|root [|? ?]] eqn:E; [done| |simpl in Hsz; lia].
    exists q, root. rewrite E. split; [done|split; [done|constructor]].
Qed.

Lemma top_of_singleton (q : pq) (root : Node) :
  pq_elems q = [root] → pq_top q = Ok root.
Proof.
  intros E. destruct (pq_top_pop q) as (x & q' & Ht & _ & He & _); [by rewrite E|].
  rewrite E in He. apply Permutation_singleton_l in He. by injection He as -> _.
Qed.

Lemma seed_heap_table (freq : gmap Z Z) :
  pq_elems (seed_heap (iterate freq)) ≡ₚ leaf_of <$> map_to_list freq.
Proof. rewrite seed_heap_elems. by rewrite iterate_perm. Qed.

(** On a table with at least one entry the construction returns a root,
    which the specification's construction reaches from the seeded queue. *)
Lemma buildHuffmanTree_run (freq : gmap Z Z) :
  freq ≠ ∅ →
  ∃ root, buildHuffmanTree freq = Ok root ∧
          spec_merge (pq_elems (seed_heap (iterate freq))) root.
Proof.
  intros Hne. unfold buildHuffmanTree.
  pose proof (seed_heap_table freq) as Hseed.
  destruct (merge_loop_spec (pq_size (seed_heap (iterate freq))) (seed_heap (iterate freq)))
    as (q' & root & Hloop & Hq' & Hm).
  { by rewrite pq_size_elems. }
  { intros E. rewrite E in Hseed. symmetry in Hseed. apply Permutation_nil_r in Hseed.
    apply fmap_nil_inv in Hseed. by apply map_to_list_empty_iff in Hseed. }
  exists root. simpl. rewrite (bind_Ok _ _ _ Hloop). split; [by apply top_of_singleton|done].
Qed.

Lemma buildHuffmanTree_spec (freq : gmap Z Z) :
  freq ≠ ∅ →
  ∃ root, buildHuffmanTree freq = Ok root ∧ spec_buildHuffmanTree freq root.
Proof.
  intros Hne. destruct (buildHuffmanTree_run freq Hne) as (root & Hb & Hm).
  exists root. split; [done|].
  exists (pq_elems (seed_heap (iterate freq))). split; [apply seed_heap_table|done].
Qed.

(** On the empty table [top()] is called on an empty queue. *)
Lemma buildHuffmanTree_empty : buildHuffmanTree ∅ = Err UndefinedBehaviour.
Proof.
  unfold buildHuffmanTree.
  assert (Hseed : pq_elems (seed_heap (iterate ∅)) = []).
  { apply Permutation_nil_r. rewrite seed_heap_elems.
    by rewrite iterate_perm, map_to_list_empty. }
  assert (Hsz : pq_size (seed_heap (iterate ∅)) = O) by by rewrite pq_size_elems, Hseed.
  rewrite Hsz. simpl. rewrite Hsz. case_decide; [lia|]. simpl.
  by apply pq_top_empty.
Qed.

End BuildFacts.

(** ** The shape of the tree and the code table *)

Lemma huffman_tree_leaves (entries : list (Z * Z)) :
  Forall huffman_tree (leaf_of <$> entries).
Proof. apply Forall_fmap, Forall_true. intros [p f]. constructor. Qed.

Lemma spec_merge_huffman_tree (bag : list Node) (root : Node) :
  spec_merge bag root → Forall huffman_tree bag → huffman_tree root.
Proof.
  induction 1 as [root|bag first second rest root Hbag _ _ _ IH]; intros Hall.
  - by inversion Hall.
  - rewrite Hbag in Hall.
    apply Forall_cons in Hall as [Hf Hall]. apply Forall_cons in Hall as [Hs Hall].
    apply IH. constructor; [by constructor|done].
Qed.

Lemma spec_build_huffman_tree (freq : gmap Z Z) (root : Node) :
  spec_buildHuffmanTree freq root → huffman_tree root.
Proof.
  intros (bag & Hbag & Hm). apply (spec_merge_huffman_tree bag); [done|].
  rewrite Hbag. apply huffman_tree_leaves.
Qed.

Lemma leaf_at_extend (t : Node) (path ext : cstring) (a b : Z) :
  leaf_at t path a → leaf_at t (path ++ ext) b → ext = [] ∧ a = b.
Proof.
  induction 1 as [a f|p f l r path a _ IH|p f l r path a _ IH]; simpl; intros Hb.
  - inversion Hb; subst; try done;
      match goal with H : leaf_at nullptr _ _ |- _ => inversion H end.
  - inversion Hb; subst. by apply IH.
  - inversion Hb; subst. by apply IH.
Qed.

(** Every entry of the table is either one it held before the call or the
    path, prefixed by [s], of a leaf with that non-zero pixel. *)
Lemma generate_lookup (t : Node) :
  huffman_tree t →
  ∀ (s : cstring) (m : gmap Z cstring) (a : Z) (c : cstring),
    generateHuffmanCodes t s m !! a = Some c →
    m !! a = Some c ∨ (a ≠ 0 ∧ ∃ path, c = s ++ path ∧ leaf_at t path a).
Proof.
  induction 1 as [p f|f l r _ IHl _ IHr]; intros s m a c; simpl.
  - case_decide as Hp; [|by left].
    destruct (decide (p = a)) as [->|Hne].
    + rewrite lookup_insert_eq. intros [= <-]. right. split; [done|].
      exists []. rewrite app_nil_r. split; [done|constructor].
    + rewrite lookup_insert_ne by done. by left.
  - intros Hc.
    apply IHr in Hc as [Hc|(Ha & path & -> & Hleaf)].
    + apply IHl in Hc as [Hc|(Ha & path & -> & Hleaf)]; [by left|].
      right. split; [done|]. exists (ch0 :: path). rewrite <- app_assoc.
      split; [done|by constructor].
    + right. split; [done|]. exists (ch1 :: path). rewrite <- app_assoc.
      split; [done|by constructor].
Qed.

Lemma generate_prefix_free (root : Node) :
  huffman_tree root → prefix_free (generateHuffmanCodes root [] ∅).
Proof.
  intros Ht a b ca cb Hab Ha Hb.
  apply (generate_lookup _ Ht) in Ha as [Ha|(_ & pa & -> & Hla)]; [by rewrite lookup_empty in Ha|].
  apply (generate_lookup _ Ht) in Hb as [Hb|(_ & pb & -> & Hlb)]; [by rewrite lookup_empty in Hb|].
  simpl. split; intros [ext ->].
  - by destruct (leaf_at_extend _ _ _ _ _ Hla Hlb).
  - by destruct (leaf_at_extend _ _ _ _ _ Hlb Hla).
Qed.

(** ** Decoding *)

Lemma huffman_tree_cases (t : Node) :
  huffman_tree t → (∃ p f, t = node p f nullptr nullptr) ∨ is_internal t.
Proof. intros [p f|f l r Hl Hr]; [left|right]; unfold is_internal; eauto 10. Qed.

Lemma leaf_at_internal_nonempty (t : Node) (path : cstring) (a : Z) :
  is_internal t → leaf_at t path a → path ≠ [].
Proof.
  intros (f & l & r & -> & Hl & _) Hleaf ->. inversion Hleaf; subst. inversion Hl.
Qed.

(** Along the path of a leaf with a non-zero pixel the loop emits that
    pixel and returns the cursor to the root. *)
Lemma decompress_loop_leaf (root t : Node) (path : cstring) (a : Z) :
  leaf_at t path a → is_internal t → a ≠ 0 →
  ∀ (bits : cstring) (out : list Z),
    decompress_loop root (path ++ bits) t out
    = decompress_loop root bits root (out ++ [a]).
Proof.
  induction 1 as [a f|p f l r path a Hl IH|p f l r path a Hr IH];
    intros Hint Ha bits out.
  - destruct Hint as (? & ? & ? & [= -> -> <- <-] & Hn & _). inversion Hn.
  - destruct Hint as (? & ? & ? & [= -> -> <- <-] & Hwl & _). simpl.
    destruct (huffman_tree_cases _ Hwl) as [(pl & fl & ->)|Hil].
    + inversion Hl; subst; try match goal with H : leaf_at nullptr _ _ |- _ => inversion H end.
      simpl. by case_decide.
    + pose proof Hil as (fl & ll & rl & -> & _ & _). simpl. by apply IH.
  - destruct Hint as (? & ? & ? & [= -> -> <- <-] & _ & Hwr). simpl.
    destruct (huffman_tree_cases _ Hwr) as [(pr & fr & ->)|Hir].
    + inversion Hr; subst; try match goal with H : leaf_at nullptr _ _ |- _ => inversion H end.
      simpl. by case_decide.
    + pose proof Hir as (fr & lr & rr & -> & _ & _). simpl. by apply IH.
Qed.

Lemma walk_nullptr (path : cstring) : walk nullptr path = nullptr.
Proof. induction path; [done|by simpl]. Qed.

Lemma child_leaf (p f : Z) (bit : ascii) : child (node p f nullptr nullptr) bit = nullptr.
Proof. simpl. by case_decide. Qed.

Lemma not_internal_leaf (p f : Z) : ¬ is_internal (node p f nullptr nullptr).
Proof. intros (? & ? & ? & [= -> -> <- <-] & Hn & _). inversion Hn. Qed.

Lemma not_internal_nullptr : ¬ is_internal nullptr.
Proof. by intros (? & ? & ? & ? & _). Qed.

(** Bits that leave the cursor on an internal node are consumed without
    output and without fault. *)
Lemma decompress_loop_internal (root : Node) (tail : cstring) :
  ∀ (t : Node) (out : list Z),
    huffman_tree t → is_internal (walk t tail) →
    decompress_loop root tail t out = Ok (walk t tail, out).
Proof.
  induction tail as [|bit tail IH]; intros t out Ht Hint; [done|].
  change (walk t (bit :: tail)) with (walk (child t bit) tail) in *.
  destruct Ht as [p f|f l r Hl Hr].
  { rewrite child_leaf, walk_nullptr in Hint. by apply not_internal_nullptr in Hint. }
  assert (Hc : huffman_tree (child (node 0 f l r) bit)) by (simpl; by case_decide).
  specialize (IH _ out Hc Hint).
  destruct (huffman_tree_cases _ Hc) as [(pc & fc & Ec)|(fc & lc & rc & Ec & _ & _)].
  - rewrite Ec in Hint. destruct tail as [|bit' tail].
    + by apply not_internal_leaf in Hint.
    + change (is_internal (walk (child (node pc fc nullptr nullptr) bit') tail)) in Hint.
      rewrite child_leaf, walk_nullptr in Hint. by apply not_internal_nullptr in Hint.
  - rewrite <- IH. simpl in Ec |- *. by rewrite Ec.
Qed.

(** A stream made of the paths of leaves with non-zero pixels, followed by
    bits that end on an internal node, decodes to those pixels; the trailing
    bits are dropped. *)
Lemma decompress_loop_paths (root : Node) (symbols : list (cstring * Z)) :
  is_internal root → huffman_tree root →
  Forall (fun s => leaf_at root s.1 s.2 ∧ s.2 ≠ 0) symbols →
  ∀ (tail : cstring) (out : list Z),
    is_internal (walk root tail) →
    decompress_loop root (concat (fst <$> symbols) ++ tail) root out
    = Ok (walk root tail, out ++ (snd <$> symbols)).
Proof.
  intros Hint Hroot. induction 1 as [|[path a] symbols [Hleaf Ha] _ IH]; intros tail out Htail.
  - simpl. rewrite app_nil_r. by apply decompress_loop_internal.
  - simpl in *. rewrite <- app_assoc.
    rewrite (decompress_loop_leaf root root path a Hleaf Hint Ha).
    rewrite IH by done. by rewrite <- app_assoc.
Qed.

(** ** The symbols of the tree and the completeness of the code table *)

Lemma symbols_of_internal (f : Z) (l r : Node) :
  huffman_tree l →
  symbols_of (node 0 f l r) = symbols_of l ++ symbols_of r.
Proof. by intros [? ?|? ? ? _ _]. Qed.

Lemma symbols_of_combined (first second : Node) :
  huffman_tree first →
  symbols_of (combined first second) = symbols_of first ++ symbols_of second.
Proof. apply symbols_of_internal. Qed.

Lemma bind_symbols_perm (bag bag' : list Node) :
  bag ≡ₚ bag' → bag ≫= symbols_of ≡ₚ bag' ≫= symbols_of.
Proof.
  induction 1 as [|x l l' _ IH|x y l|l1 l2 l3 _ IH1 _ IH2]; [done| | |by etrans].
  - rewrite !bind_cons. by rewrite IH.
  - rewrite !bind_cons, !app_assoc. f_equiv. apply Permutation_app_comm.
Qed.

Lemma spec_merge_symbols (bag : list Node) (root : Node) :
  spec_merge bag root → Forall huffman_tree bag →
  symbols_of root ≡ₚ bag ≫= symbols_of.
Proof.
  induction 1 as [root|bag first second rest root Hbag _ _ _ IH]; intros Hall.
  - by rewrite bind_singleton.
  - rewrite (bind_symbols_perm _ _ Hbag). rewrite Hbag in Hall.
    apply Forall_cons in Hall as [Hf Hall]. apply Forall_cons in Hall as [Hs Hall].
    rewrite IH by (constructor; [by constructor|done]).
    rewrite !bind_cons, symbols_of_combined by done. by rewrite app_assoc.
Qed.

Lemma leaves_symbols (entries : list (Z * Z)) :
  (leaf_of <$> entries) ≫= symbols_of = entries.*1.
Proof.
  induction entries as [|[p f] entries IH]; [done|].
  rewrite fmap_cons, bind_cons, IH. reflexivity.
Qed.

(** The leaves of the tree hold the keys of the table, each once. *)
Lemma spec_build_symbols (freq : gmap Z Z) (root : Node) :
  spec_buildHuffmanTree freq root → symbols_of root ≡ₚ (map_to_list freq).*1.
Proof.
  intros (bag & Hbag & Hm).
  rewrite (spec_merge_symbols bag root Hm).
  - by rewrite (bind_symbols_perm _ _ Hbag), leaves_symbols.
  - rewrite Hbag. apply huffman_tree_leaves.
Qed.

Lemma spec_build_NoDup (freq : gmap Z Z) (root : Node) :
  spec_buildHuffmanTree freq root → NoDup (symbols_of root).
Proof.
  intros Hb. rewrite (spec_build_symbols freq root Hb). apply NoDup_fst_map_to_list.
Qed.

Lemma leaf_at_symbol (t : Node) (path : cstring) (a : Z) :
  huffman_tree t → leaf_at t path a → a ∈ symbols_of t.
Proof.
  induction 1 as [p f|f l r Hl IHl Hr IHr] in path |- *; intros Hleaf.
  - inversion Hleaf; subst; [apply list_elem_of_here| |];
      match goal with H : leaf_at nullptr _ _ |- _ => inversion H end.
  - rewrite symbols_of_internal by done. apply elem_of_app.
    inversion Hleaf; subst; [inversion Hl|left|right]; eauto.
Qed.

Lemma symbol_leaf_at (t : Node) (a : Z) :
  huffman_tree t → a ∈ symbols_of t → ∃ path, leaf_at t path a.
Proof.
  induction 1 as [p f|f l r Hl IHl Hr IHr]; intros Ha.
  - apply list_elem_of_singleton in Ha as ->. exists []. constructor.
  - rewrite symbols_of_internal in Ha by done.
    apply elem_of_app in Ha as [Ha|Ha].
    + destruct (IHl Ha) as [path Hp]. exists (ch0 :: path). by constructor.
    + destruct (IHr Ha) as [path Hp]. exists (ch1 :: path). by constructor.
Qed.

Lemma generate_lookup_notin (t : Node) (a : Z) :
  huffman_tree t → a ∉ symbols_of t →
  ∀ (s : cstring) (m : gmap Z cstring), generateHuffmanCodes t s m !! a = m !! a.
Proof.
  induction 1 as [p f|f l r Hl IHl Hr IHr]; intros Ha s m; simpl.
  - case_decide; [|done]. apply lookup_insert_ne. intros ->. apply Ha, list_elem_of_here.
  - rewrite symbols_of_internal in Ha by done. apply not_elem_of_app in Ha as [Hal Har].
    by rewrite IHr, IHl.
Qed.

(** The table holds, for a leaf with a non-zero pixel, the path of that
    leaf. *)
Lemma generate_lookup_leaf (t : Node) (path : cstring) (a : Z) :
  leaf_at t path a → huffman_tree t → NoDup (symbols_of t) → a ≠ 0 →
  ∀ (s : cstring) (m : gmap Z cstring),
    generateHuffmanCodes t s m !! a = Some (s ++ path).
Proof.
  induction 1 as [a f|p f l r path a Hl IH|p f l r path a Hr IH]; intros Ht Hnd Ha s m.
  - simpl. case_decide; [|done]. by rewrite app_nil_r, lookup_insert_eq.
  - inversion Ht as [|? ? ? Hwl Hwr]; subst; [inversion Hl|].
    rewrite symbols_of_internal in Hnd by done.
    apply NoDup_app in Hnd as (Hndl & Hdisj & Hndr). simpl.
    rewrite generate_lookup_notin by (try done; by eapply Hdisj, leaf_at_symbol).
    rewrite IH by done. by rewrite <- app_assoc.
  - inversion Ht as [|? ? ? Hwl Hwr]; subst; [inversion Hr|].
    rewrite symbols_of_internal in Hnd by done.
    apply NoDup_app in Hnd as (Hndl & Hdisj & Hndr). simpl.
    rewrite IH by done. by rewrite <- app_assoc.
Qed.

(** ** Tables without ties: the result does not depend on the queue *)

Lemma insert_by_freq_perm (x : Node) (l : list Node) : insert_by_freq x l ≡ₚ x :: l.
Proof.
  induction l as [|y l IH]; simpl; [done|].
  destruct (Compare x y); [|done]. rewrite IH. apply Permutation_swap.
Qed.

Lemma strictly_ascending_head (x : Node) (l : list Node) :
  strictly_ascending (x :: l) = true →
  strictly_ascending l = true ∧ ∀ z, z ∈ l → freq_of x < freq_of z.
Proof.
  revert x. induction l as [|y l IH]; intros x Hs.
  - split; [done|]. intros z Hz. by apply elem_of_nil in Hz.
  - change (strictly_ascending (x :: y :: l))
      with ((freq_of x <? freq_of y) && strictly_ascending (y :: l)) in Hs.
    apply andb_true_iff in Hs as [Hxy Hs]. apply Z.ltb_lt in Hxy.
    split; [done|]. destruct (IH y Hs) as [_ Hy].
    intros z [->|Hz]%elem_of_cons; [done|]. specialize (Hy z Hz). lia.
Qed.

(** The lowest element of a bag that is a strictly ascending list is the
    head of the list. *)
Lemma lowest_is_head (bag rest l : list Node) (first x : Node) :
  bag ≡ₚ first :: rest → bag ≡ₚ x :: l →
  (∀ y, y ∈ bag → freq_of first ≤ freq_of y) →
  (∀ z, z ∈ l → freq_of x < freq_of z) →
  first = x ∧ rest ≡ₚ l.
Proof.
  intros Hb Hl Hlow Hx.
  assert (Hin : first ∈ x :: l) by (rewrite <- Hl, Hb; apply list_elem_of_here).
  assert (Hxb : x ∈ bag) by (rewrite Hl; apply list_elem_of_here).
  apply elem_of_cons in Hin as [->|Hin].
  - split; [done|]. rewrite Hb in Hl. by apply Permutation_cons_inv in Hl.
  - specialize (Hx _ Hin). specialize (Hlow _ Hxb). lia.
Qed.

Lemma spec_merge_no_ties (bag : list Node) (root : Node) :
  spec_merge bag root →
  ∀ (fuel : nat) (l : list Node) (r : Node),
    bag ≡ₚ l → merge_sorted fuel l = Some r → r = root.
Proof.
  induction 1 as [root|bag first second rest root Hbag Hf Hs _ IH]; intros fuel l r Hl Hr.
  - apply Permutation_singleton_l in Hl as <-. destruct fuel; simpl in Hr; congruence.
  - destruct l as [|x [|y l]].
    + rewrite Hbag in Hl. by apply Permutation_nil_r in Hl.
    + rewrite Hbag in Hl. apply Permutation_length in Hl. discriminate.
    + destruct fuel as [|fuel]; [done|].
      change (merge_sorted (S fuel) (x :: y :: l))
        with (if strictly_ascending (x :: y :: l)
              then merge_sorted fuel (insert_by_freq (combined x y) l) else None) in Hr.
      destruct (strictly_ascending (x :: y :: l)) eqn:Hasc; [|done].
      apply strictly_ascending_head in Hasc as [Hasc Hx].
      apply strictly_ascending_head in Hasc as [_ Hy].
      destruct (lowest_is_head bag (second :: rest) (y :: l) first x) as [-> Hrest];
        [done..|].
      destruct (lowest_is_head (second :: rest) rest l second y) as [-> Hrest'];
        [done..|].
      apply (IH fuel (insert_by_freq (combined x y) l)); [|done].
      rewrite insert_by_freq_perm. by rewrite Hrest'.
Qed.

Lemma classic_table_nonempty : classic_table ≠ ∅.
Proof. unfold classic_table. simpl. apply insert_non_empty. Qed.

Lemma classic_table_leaves : leaf_of <$> map_to_list classic_table ≡ₚ leaf_of <$> classic_entries.
Proof.
  unfold classic_table. rewrite map_to_list_to_map; [done|].
  apply NoDup_ListNoDup. vm_compute. repeat constructor; simpl; intuition discriminate.
Qed.

Lemma buildHuffmanTree_singleton
    `{PQ : PriorityQueue Node Compare} `{UI : UnorderedIteration} (p f : Z) :
  buildHuffmanTree {[p := f]} = Ok (new_Node p f).
Proof.
  destruct (buildHuffmanTree_spec {[p := f]}) as (root & Hb & bag & Hbag & Hm).
  { apply insert_non_empty. }
  rewrite map_to_list_singleton in Hbag. apply Permutation_singleton_r in Hbag as ->.
  inversion Hm as [|? ? ? ? ? Hp]; subst; [done|].
  apply Permutation_length in Hp. discriminate.
Qed.

Lemma generate_no_code_for_zero (root : Node) :
  huffman_tree root → generateHuffmanCodes root [] ∅ !! 0 = None.
Proof.
  intros Ht. destruct (generateHuffmanCodes root [] ∅ !! 0) as [c|] eqn:E; [|done].
  apply (generate_lookup _ Ht) in E as [E|(Hne & _)]; [by rewrite lookup_empty in E|done].
Qed.

Lemma internal_of_walk (t : Node) (tail : cstring) :
  huffman_tree t → is_internal (walk t tail) → is_internal t.
Proof.
  intros Ht Hint. destruct Ht as [p f|f l r Hl Hr].
  - destruct tail as [|bit tail]; [done|].
    change (is_internal (walk (child (node p f nullptr nullptr) bit) tail)) in Hint.
    rewrite child_leaf, walk_nullptr in Hint. by apply not_internal_nullptr in Hint.
  - unfold is_internal. eauto 10.
Qed.

Lemma classic_tree_shape : huffman_tree classic_tree.
Proof. repeat constructor. Qed.

Lemma sample_tree_shape : huffman_tree sample_tree.
Proof. repeat constructor. Qed.

(** ** Packing and unpacking *)

Lemma wrap_int_id (z : Z) : in_int z → wrap_int z = z.
Proof.
  unfold in_int, INT_MIN, INT_MAX, wrap_int. intros Hz.
  rewrite Z.mod_small by lia. lia.
Qed.

Lemma int_add_exact (a b : Z) : in_int (a + b) → int_add a b = a + b.
Proof. apply wrap_int_id. Qed.

Lemma read_int_bytes (x : Z) (rest : list Z) :
  in_int x → read_int (int_bytes x ++ rest) = Ok (x, rest).
Proof.
  unfold in_int, INT_MIN, INT_MAX. intros Hx. unfold int_bytes. simpl.
  do 2 f_equal. unfold int_of_bytes, wrap_int.
  set (u := x mod 2 ^ 32).
  assert (Hu : 0 ≤ u < 2 ^ 32) by (apply Z.mod_pos_bound; lia).
  assert (Hsum : u mod 256 + u / 2 ^ 8 mod 256 * 2 ^ 8 + u / 2 ^ 16 mod 256 * 2 ^ 16
                 + u / 2 ^ 24 mod 256 * 2 ^ 24 = u).
  { clearbody u. clear Hx. change (2 ^ 8) with 256. change (2 ^ 16) with 65536.
    change (2 ^ 24) with 16777216. change (2 ^ 32) with 4294967296 in Hu.
    Z.div_mod_to_equations. lia. }
  rewrite Hsum. subst u.
  destruct (decide (0 ≤ x)).
  - rewrite (Z.mod_small x) by lia. rewrite Z.mod_small by lia. lia.
  - replace (x mod 2 ^ 32) with (x + 2 ^ 32).
    + replace (x + 2 ^ 32 + 2 ^ 31) with (x + 2 ^ 31 + 1 * 2 ^ 32) by lia.
      rewrite Z.mod_add by lia. rewrite Z.mod_small by lia. lia.
    + apply Z.mod_unique with (-1); lia.
Qed.

Lemma is_bit_chars (s : cstring) : Forall is_bit s → ∃ bs, s = bit_char <$> bs.
Proof.
  induction 1 as [|c s Hc _ [bs ->]]; [by exists []|].
  destruct Hc as [-> | ->]; [by exists (false :: bs)|by exists (true :: bs)].
Qed.

Ltac enum_bits bs n :=
  lazymatch n with
  | O => idtac
  | S ?n' => destruct bs as [|[|] bs]; [by vm_compute|enum_bits bs n'|enum_bits bs n']
  end.

(** A chunk of at most eight bits makes the byte whose value the chunk
    denotes in binary, and that byte reads back as the padded chunk. *)
Lemma bitset8_of_bits (bs : list bool) :
  (length bs ≤ 8)%nat →
  bitset8_of_string (bit_char <$> bs) = Ok (binary_value (bit_Z <$> bs)) ∧
  bitset8_to_string (binary_value (bit_Z <$> bs)) = pad8 (bit_char <$> bs).
Proof.
  intros Hlen. enum_bits bs 8%nat.
  all: destruct bs; [by vm_compute|simpl in Hlen; lia].
Qed.

Lemma bitset8_chunk (chunk : cstring) :
  Forall is_bit chunk → (length chunk ≤ 8)%nat →
  ∃ v, bitset8_of_string chunk = Ok v ∧ bitset8_to_string v = pad8 chunk.
Proof.
  intros [bs ->]%is_bit_chars Hlen. rewrite length_fmap in Hlen.
  destruct (bitset8_of_bits bs Hlen). eauto.
Qed.

Lemma write_payload_done (fuel i : nat) (s : cstring) :
  (length s ≤ i)%nat → write_payload fuel i s = Ok [].
Proof. intros Hi. destruct fuel; simpl; case_decide; (done || lia). Qed.

Lemma write_payload_step (fuel i : nat) (s : cstring) :
  (i < length s)%nat →
  write_payload (S fuel) i s
  = (byte ← bitset8_of_string (substr s i 8);
     rest ← write_payload fuel (i + 8) s;
     Ok (byte :: rest)).
Proof. intros Hi. simpl. case_decide; (done || lia). Qed.

Lemma read_payload_done (fuel : nat) (i bitsCount : Z) (data : cstring) (file : list Z) :
  bitsCount ≤ i → read_payload fuel i bitsCount data file = Ok data.
Proof. intros Hi. destruct fuel; simpl; case_decide; (done || lia). Qed.

Lemma read_payload_step (fuel : nat) (i bitsCount : Z) (data : cstring)
    (byte : Z) (file : list Z) :
  i < bitsCount →
  read_payload (S fuel) i bitsCount data (byte :: file)
  = (data' ← string_replace data i 8 (bitset8_to_string byte);
     read_payload fuel (int_add i 8) bitsCount data' file).
Proof. intros Hi. simpl. case_decide; (done || lia). Qed.

Lemma string_replace_at_end (done_ buf t : cstring) :
  string_replace (done_ ++ buf) (Z.of_nat (length done_)) 8 t
  = Ok (done_ ++ t ++ drop 8 buf).
Proof.
  unfold string_replace. rewrite length_app. case_decide as Hpos; [|lia].
  by rewrite Nat2Z.id, take_app_length, drop_app_add.
Qed.

(** The two loops side by side: [done_] has been written and read, [full]
    (whole chunks) and [part] (a shorter last chunk) are still to come. *)
Lemma write_read_chunks (k : nat) :
  ∀ (done_ full part buf : cstring) (fuel_w fuel_r : nat),
    length full = (8 * k)%nat → (length part < 8)%nat →
    Forall is_bit (full ++ part) →
    Z.of_nat (length (done_ ++ full ++ part)) ≤ INT_MAX - 7 →
    length buf = length (full ++ part) →
    (k + last_bytes part ≤ fuel_w)%nat →
    (k + last_bytes part ≤ fuel_r)%nat →
    ∃ payload,
      write_payload fuel_w (length done_) (done_ ++ full ++ part) = Ok payload ∧
      length payload = (k + last_bytes part)%nat ∧
      read_payload fuel_r (Z.of_nat (length done_))
                   (Z.of_nat (length (done_ ++ full ++ part))) (done_ ++ buf) payload
      = Ok (done_ ++ full ++ padded_last part) ∧
      (part ≠ [] → ∃ v, last payload = Some v ∧ bitset8_of_string part = Ok v).
Proof.
  unfold INT_MAX.
  induction k as [|k IH]; intros done_ full part buf fuel_w fuel_r Hfull Hpart Hbits HL Hbuf Hw Hr.
  - apply nil_length_inv in Hfull as ->. simpl in *.
    destruct part as [|c part].
    + rewrite app_nil_r in *. apply nil_length_inv in Hbuf as ->. rewrite app_nil_r.
      exists []. rewrite write_payload_done by done.
      split; [done|split; [done|split; [|done]]].
      rewrite read_payload_done by lia. simpl. by rewrite app_nil_r.
    + destruct fuel_w as [|fuel_w]; [simpl in Hw; lia|].
      destruct fuel_r as [|fuel_r]; [simpl in Hr; lia|].
      destruct (bitset8_chunk (c :: part) Hbits) as (v & Hv & Hstr); [lia|].
      exists [v]. rewrite write_payload_step by (rewrite length_app; simpl; lia).
      unfold substr. rewrite drop_app_length, take_ge by lia.
      rewrite (bind_Ok _ _ _ Hv).
      rewrite write_payload_done by (rewrite length_app; simpl in *; lia).
      split; [done|split; [done|split; [|by exists v]]].
      rewrite read_payload_step by (rewrite length_app; simpl; lia).
      rewrite string_replace_at_end, Hstr. simpl.
      rewrite read_payload_done.
      * by rewrite drop_ge, app_nil_r by lia.
      * rewrite int_add_exact; rewrite length_app in *; simpl in *;
          unfold in_int, INT_MIN, INT_MAX; lia.
  - assert (Hchunk : length (take 8 full) = 8%nat) by (rewrite length_take; lia).
    assert (Hrest : length (drop 8 full) = (8 * k)%nat) by (rewrite length_drop; lia).
    rewrite <- (take_drop 8 full) in Hbits, HL, Hbuf |- *.
    set (chunk := take 8 full) in *. set (full' := drop 8 full) in *.
    clearbody chunk full'. clear Hfull full.
    rewrite <- !app_assoc in *.
    apply Forall_app in Hbits as [Hc Hbits].
    destruct fuel_w as [|fuel_w]; [lia|]. destruct fuel_r as [|fuel_r]; [lia|].
    destruct (bitset8_chunk chunk Hc) as (v & Hv & Hstr); [lia|].
    unfold pad8 in Hstr. rewrite Hchunk in Hstr. simpl in Hstr.
    destruct (IH (done_ ++ chunk) full' part (drop 8 buf) fuel_w fuel_r)
      as (payload & Hwrite & Hlen & Hread & Hlast); [done|done|done| | |lia|lia|].
    { by rewrite <- app_assoc. }
    { rewrite length_drop, Hbuf, !length_app. lia. }
    exists (v :: payload).
    rewrite write_payload_step by (rewrite !length_app; lia).
    unfold substr. rewrite drop_app_length.
    rewrite take_app_length' by done. rewrite (bind_Ok _ _ _ Hv).
    rewrite length_app, Hchunk, <- app_assoc in Hwrite. rewrite (bind_Ok _ _ _ Hwrite).
    split; [done|split; [simpl; lia|split]].
    2:{ intros Hne. destruct (Hlast Hne) as (v' & Hv' & Hpart').
        exists v'. by rewrite last_cons, Hv'. }
    rewrite read_payload_step by (rewrite !length_app; lia).
    rewrite string_replace_at_end, Hstr. simpl.
    rewrite int_add_exact.
    + rewrite <- !app_assoc in Hread.
      rewrite length_app, Hchunk, Nat2Z.inj_add in Hread. exact Hread.
    + rewrite !length_app in HL. unfold in_int, INT_MIN, INT_MAX. lia.
Qed.

Lemma length_int_bytes (x : Z) : length (int_bytes x) = 4%nat.
Proof. reflexivity. Qed.

Lemma readCompressed_header (bitsCount width height : Z) (payload : list Z) :
  in_int bitsCount → in_int width → in_int height → 0 ≤ bitsCount →
  readCompressed (int_bytes bitsCount ++ int_bytes width ++ int_bytes height ++ payload)
  = (compressedData ← read_payload (Z.to_nat bitsCount) 0 bitsCount
                         (replicate (Z.to_nat bitsCount) ch0) payload;
     Ok (compressedData, width, height, bitsCount)).
Proof.
  intros Hb Hw Hh Hpos. unfold readCompressed.
  rewrite read_int_bytes by done. cbv beta iota delta [mbind res_bind].
  rewrite read_int_bytes by done. cbv beta iota.
  rewrite read_int_bytes by done. cbv beta iota.
  case_decide; [lia|done].
Qed.

Lemma padded_last_unpacked (s : cstring) :
  unpacked s
  = take (8 * (length s / 8)) s ++ padded_last (drop (8 * (length s / 8)) s).
Proof.
  unfold unpacked. f_equal.
  pose proof (Nat.div_mod_eq (length s) 8) as Hdiv.
  destruct (drop (8 * (length s / 8)) s) as [|c part] eqn:E.
  - apply (f_equal length) in E. rewrite length_drop in E.
    change (length []) with 0%nat in E. case_decide; [done|lia].
  - apply (f_equal length) in E. rewrite length_drop, length_cons in E.
    case_decide; [lia|done].
Qed.

(** Writing a string of bits and reading the file back: the file has twelve
    header bytes and one payload byte for every started group of eight bits;
    the string read back is [unpacked s], the dimensions and the bit count
    are the ones written. *)
Lemma write_then_read (s : cstring) (width height : Z) :
  Forall is_bit s → Z.of_nat (length s) ≤ INT_MAX - 7 →
  in_int width → in_int height →
  ∃ file,
    writeCompressed s width height = Ok file ∧
    length file = (12 + (length s + 7) / 8)%nat ∧
    readCompressed file = Ok (unpacked s, width, height, Z.of_nat (length s)) ∧
    ((length s mod 8 ≠ 0)%nat →
     ∃ v, last file = Some v ∧
          bitset8_to_string v = pad8 (drop (8 * (length s / 8)) s)).
Proof.
  intros Hbits HL Hw Hh.
  pose proof (Nat.div_mod_eq (length s) 8) as Hdiv.
  pose proof (Nat.mod_upper_bound (length s) 8) as Hmod.
  set (k := (length s / 8)%nat) in *.
  set (full := take (8 * k) s). set (part := drop (8 * k) s).
  assert (Hs : s = full ++ part) by (symmetry; apply take_drop).
  assert (Hfull : length full = (8 * k)%nat) by (subst full; rewrite length_take; lia).
  assert (Hpart : length part = (length s mod 8)%nat)
    by (subst part; rewrite length_drop; lia).
  clearbody full part.
  assert (Hlast : (k + last_bytes part = (length s + 7) / 8)%nat).
  { destruct part as [|c part'].
    - change (length []) with 0%nat in Hpart. change (last_bytes []) with 0%nat.
      replace (length s + 7)%nat with (7 + k * 8)%nat by lia.
      rewrite Nat.div_add by lia. change (7 / 8)%nat with 0%nat. lia.
    - rewrite length_cons in Hpart. change (last_bytes (c :: part')) with 1%nat.
      replace (length s + 7)%nat with ((length s mod 8 - 1) + (k + 1) * 8)%nat by lia.
      rewrite Nat.div_add by lia. rewrite Nat.div_small by lia. lia. }
  assert (Hbits' : Forall is_bit (full ++ part)) by by rewrite <- Hs.
  assert (Hfuel : (k + last_bytes part ≤ length s)%nat).
  { destruct part as [|c part']; [change (last_bytes []) with 0%nat; lia|].
    rewrite length_cons in Hpart. change (last_bytes (c :: part')) with 1%nat. lia. }
  destruct (write_read_chunks k [] full part (replicate (length s) ch0) (length s) (length s))
    as (payload & Hwrite & Hlen & Hread & Hlastbyte); try done; try lia.
  { simpl. by rewrite <- Hs. }
  { by rewrite length_replicate, <- Hs. }
  simpl in Hwrite, Hread. rewrite <- Hs in Hwrite, Hread.
  assert (Hint : in_int (Z.of_nat (length s))).
  { unfold in_int, INT_MIN, INT_MAX in *. lia. }
  exists (int_bytes (Z.of_nat (length s)) ++ int_bytes width ++ int_bytes height ++ payload).
  split; [|split; [|split]].
  - unfold writeCompressed. rewrite (bind_Ok _ _ _ Hwrite). by rewrite wrap_int_id.
  - rewrite !length_app, !length_int_bytes, Hlen. lia.
  - rewrite readCompressed_header by (done || lia).
    change (Z.of_nat 0) with 0 in Hread. rewrite Nat2Z.id, Hread. simpl.
    rewrite padded_last_unpacked. fold k. rewrite Hs at 2 3.
    by rewrite take_app_length', drop_app_length' by done.
  - intros Hmod'. destruct Hlastbyte as (v & Hv & Hof).
    { intros ->. change (length []) with 0%nat in Hpart. lia. }
    exists v. rewrite !last_app, Hv. split; [done|].
    apply Forall_app in Hbits' as [_ Hbp].
    destruct (bitset8_chunk part Hbp) as (v' & Hv' & Hstr); [lia|].
    rewrite Hof in Hv'. by injection Hv' as <-.
Qed.

(** ** The whole pipeline *)

Lemma unpacked_whole (s : cstring) : (length s mod 8 = 0)%nat → unpacked s = s.
Proof.
  intros Hmod. unfold unpacked. case_decide; [|done].
  rewrite app_nil_r. apply take_ge.
  pose proof (Nat.div_mod_eq (length s) 8). lia.
Qed.

Lemma length_unpacked (s : cstring) :
  (length s mod 8 ≠ 0)%nat →
  length (unpacked s) = (length s + (8 - length s mod 8))%nat.
Proof.
  intros Hmod. unfold unpacked, pad8. case_decide; [done|].
  pose proof (Nat.div_mod_eq (length s) 8).
  pose proof (Nat.mod_upper_bound (length s) 8).
  rewrite !length_app, length_replicate, length_take, length_drop. lia.
Qed.

Lemma count_frequencies_from (image : list Z) (acc : gmap Z Z) (a : Z) :
  is_Some (foldl (fun freq pixel => <[pixel := int_add (default 0 (freq !! pixel)) 1]> freq)
                 acc image !! a)
  ↔ is_Some (acc !! a) ∨ a ∈ image.
Proof.
  revert acc. induction image as [|p image IH]; intros acc; simpl.
  - rewrite elem_of_nil. tauto.
  - rewrite IH, lookup_insert_is_Some, elem_of_cons.
    destruct (decide (p = a)) as [->|Hne]; [tauto|].
    assert (a ≠ p) by congruence. tauto.
Qed.

(** The table has an entry exactly for the values that occur in the image. *)
Lemma count_frequencies_dom (image : list Z) (a : Z) :
  is_Some (count_frequencies image !! a) ↔ a ∈ image.
Proof.
  unfold count_frequencies. rewrite count_frequencies_from, lookup_empty.
  split; [intros [[? [=]]|]; done|by right].
Qed.

Lemma encode_from (huffmanCode : gmap Z cstring) (image : list Z) (acc : cstring) :
  foldl (fun compressedData pixel => compressedData ++ code_of huffmanCode pixel) acc image
  = acc ++ concat (code_of huffmanCode <$> image).
Proof.
  revert acc. induction image as [|p image IH]; intros acc; simpl.
  - by rewrite app_nil_r.
  - by rewrite IH, app_assoc.
Qed.

Lemma encode_concat (huffmanCode : gmap Z cstring) (image : list Z) :
  encode huffmanCode image = concat (code_of huffmanCode <$> image).
Proof. apply encode_from. Qed.

Lemma leaf_at_bits (t : Node) (path : cstring) (a : Z) :
  leaf_at t path a → Forall is_bit path.
Proof. induction 1; constructor; (done || by (left + right)). Qed.

Section Pipeline.
Context `{PQ : PriorityQueue Node Compare} `{UI : UnorderedIteration}.

(** What the tree and the code table of an image are like when the image
    has two different values and no zero. *)
Lemma image_tree (image : list Z) (a b : Z) :
  a ∈ image → b ∈ image → a ≠ b → 0 ∉ image →
  ∃ root,
    buildHuffmanTree (count_frequencies image) = Ok root ∧
    huffman_tree root ∧ is_internal root ∧
    Forall (fun p => leaf_at root (code_of (generateHuffmanCodes root [] ∅) p) p ∧ p ≠ 0) image.
Proof.
  intros Ha Hb Hab H0.
  destruct (buildHuffmanTree_spec (count_frequencies image)) as (root & Hbuild & Hspec).
  { intros E. apply count_frequencies_dom in Ha. rewrite E, lookup_empty in Ha.
    by destruct Ha. }
  pose proof (spec_build_huffman_tree _ _ Hspec) as Ht.
  pose proof (spec_build_NoDup _ _ Hspec) as Hnd.
  assert (Hsym : ∀ p, p ∈ image → p ∈ symbols_of root).
  { intros p Hp. rewrite (spec_build_symbols _ _ Hspec).
    apply count_frequencies_dom in Hp as [f Hf].
    apply list_elem_of_fmap. exists (p, f). split; [done|by apply elem_of_map_to_list]. }
  exists root. split; [done|]. split; [done|]. split.
  - destruct (huffman_tree_cases _ Ht) as [(p & f & ->)|Hint]; [|done].
    pose proof (Hsym a Ha) as Ha'. pose proof (Hsym b Hb) as Hb'.
    apply list_elem_of_singleton in Ha', Hb'. congruence.
  - apply Forall_forall. intros p Hp.
    assert (Hp0 : p ≠ 0) by (intros ->; done).
    split; [|done].
    destruct (symbol_leaf_at _ _ Ht (Hsym p Hp)) as [path Hpath].
    unfold code_of.
    by rewrite (generate_lookup_leaf root path p Hpath Ht Hnd Hp0 [] ∅).
Qed.

End Pipeline.

(** ** Frequencies *)

Lemma bag_frequency_perm (bag bag' : list Node) :
  bag ≡ₚ bag' → bag_frequency bag = bag_frequency bag'.
Proof. induction 1; simpl in *; lia. Qed.

Lemma bag_frequency_nonneg (bag : list Node) :
  Forall (fun n => 0 ≤ freq_of n) bag → 0 ≤ bag_frequency bag.
Proof. induction 1; simpl; lia. Qed.

Lemma spec_merge_frequency (bag : list Node) (root : Node) :
  spec_merge bag root →
  Forall (fun n => 0 ≤ freq_of n) bag → bag_frequency bag ≤ INT_MAX →
  freq_of root = bag_frequency bag.
Proof.
  induction 1 as [root|bag first second rest root Hbag _ _ _ IH]; intros Hpos Hmax.
  - simpl. lia.
  - rewrite Hbag in Hpos. rewrite (bag_frequency_perm _ _ Hbag) in Hmax |- *.
    apply Forall_cons in Hpos as [Hf Hpos]. apply Forall_cons in Hpos as [Hs Hpos].
    pose proof (bag_frequency_nonneg rest Hpos) as Hrest.
    simpl in Hmax |- *.
    assert (Hsum : int_add (freq_of first) (freq_of second) = freq_of first + freq_of second).
    { apply int_add_exact. unfold in_int, INT_MIN, INT_MAX in *. lia. }
    rewrite IH.
    + simpl. rewrite Hsum. lia.
    + constructor; [simpl; rewrite Hsum; lia|done].
    + simpl. rewrite Hsum. lia.
Qed.

Lemma total_frequency_entries (freq : gmap Z Z) :
  total_frequency freq = bag_frequency (leaf_of <$> map_to_list freq).
Proof.
  unfold total_frequency. rewrite map_fold_foldr.
  induction (map_to_list freq) as [|[p c] l IH]; [done|].
  rewrite fmap_cons. simpl. rewrite IH. lia.
Qed.

Lemma spec_merge_sums_exact (bag : list Node) (root : Node) :
  spec_merge bag root →
  Forall sums_exact bag → Forall (fun n => 0 ≤ freq_of n) bag →
  bag_frequency bag ≤ INT_MAX →
  sums_exact root.
Proof.
  induction 1 as [root|bag first second rest root Hbag _ _ _ IH]; intros Hex Hpos Hmax.
  - by inversion Hex.
  - rewrite Hbag in Hex, Hpos. rewrite (bag_frequency_perm _ _ Hbag) in Hmax.
    apply Forall_cons in Hex as [Hef Hex]. apply Forall_cons in Hex as [Hes Hex].
    apply Forall_cons in Hpos as [Hf Hpos]. apply Forall_cons in Hpos as [Hs Hpos].
    pose proof (bag_frequency_nonneg rest Hpos) as Hrest.
    simpl in Hmax.
    assert (Hsum : int_add (freq_of first) (freq_of second) = freq_of first + freq_of second).
    { apply int_add_exact. unfold in_int, INT_MIN, INT_MAX in *. lia. }
    apply IH.
    + constructor; [|done]. unfold combined. rewrite Hsum. by constructor.
    + constructor; [simpl; rewrite Hsum; lia|done].
    + simpl. rewrite Hsum. lia.
Qed.

Lemma leaves_sums_exact (entries : list (Z * Z)) :
  Forall sums_exact (leaf_of <$> entries).
Proof. apply Forall_fmap, Forall_true. intros [p f]. constructor. Qed.

Lemma leaves_nonneg (freq : gmap Z Z) :
  map_Forall (fun _ count => 0 ≤ count) freq →
  Forall (fun n => 0 ≤ freq_of n) (leaf_of <$> map_to_list freq).
Proof.
  intros Hpos. apply Forall_fmap, Forall_forall. intros [p c] Hin.
  apply elem_of_map_to_list in Hin. by apply (Hpos p c).
Qed.

(** ** The decoder on trees without a zero leaf *)

Lemma decompress_loop_total (root : Node) :
  huffman_tree root → is_internal root → 0 ∉ symbols_of root →
  ∀ (bits : cstring) (cur : Node) (out : list Z),
    huffman_tree cur → is_internal cur → 0 ∉ symbols_of cur →
    ∃ cursor image, decompress_loop root bits cur out = Ok (cursor, image).
Proof.
  intros Hroot Hiroot H0root.
  induction bits as [|bit bits IH]; intros cur out Hcur Hicur H0cur; [by eexists _, _|].
  destruct Hicur as (f & l & r & -> & Hl & Hr).
  rewrite symbols_of_internal in H0cur by done.
  apply not_elem_of_app in H0cur as [H0l H0r]. simpl.
  set (c := if decide (bit = ch0) then l else r).
  assert (Hc : huffman_tree c ∧ 0 ∉ symbols_of c) by (subst c; by case_decide).
  destruct Hc as [Hc H0c]. clearbody c.
  destruct (huffman_tree_cases _ Hc) as [(pc & fc & ->)|Hic].
  - case_decide as Hpc; [by apply IH|].
    exfalso. apply H0c. simpl. apply list_elem_of_singleton. lia.
  - pose proof Hic as (fc & lc & rc & -> & _ & _).
    case_decide; [done|]. by apply IH.
Qed.

Lemma buildHuffmanTree_root_frequency
    `{PQ : PriorityQueue Node Compare} `{UI : UnorderedIteration}
    (freq : gmap Z Z) (root : Node) :
  map_Forall (fun _ count => 0 ≤ count) freq →
  total_frequency freq ≤ INT_MAX →
  buildHuffmanTree freq = Ok root →
  freq_of root = total_frequency freq.
Proof.
  intros Hpos Hmax Hbuild.
  destruct (decide (freq = ∅)) as [->|Hne].
  { by rewrite buildHuffmanTree_empty in Hbuild. }
  destruct (buildHuffmanTree_spec freq Hne) as (root' & Hb & bag & Hbag & Hm).
  rewrite Hbuild in Hb. injection Hb as <-.
  rewrite total_frequency_entries in Hmax |- *.
  rewrite <- (bag_frequency_perm _ _ Hbag) in Hmax |- *.
  apply spec_merge_frequency; [done| |done].
  rewrite Hbag. apply Forall_fmap, Forall_forall. intros [p c] Hin.
  apply elem_of_map_to_list in Hin. by apply (Hpos p c).
Qed.

Lemma count_frequencies_single_from (p c : Z) (n : nat) :
  ∃ c', foldl (fun freq pixel => <[pixel := int_add (default 0 (freq !! pixel)) 1]> freq)
              ({[p := c]} : gmap Z Z) (replicate n p) = {[p := c']}.
Proof.
  revert c. induction n as [|n IH]; intros c; simpl; [by exists c|].
  rewrite insert_singleton. case_decide; [|done]. apply IH.
Qed.

Lemma count_frequencies_single (p : Z) (n : nat) :
  ∃ c, count_frequencies (replicate (S n) p) = {[p := c]}.
Proof.
  unfold count_frequencies. simpl. apply count_frequencies_single_from.
Qed.

(** ** The frequency table of an image *)

Lemma total_frequency_insert (m : gmap Z Z) (x c : Z) :
  total_frequency (<[x := c]> m) = total_frequency m - default 0 (m !! x) + c.
Proof.
  unfold total_frequency.
  destruct (m !! x) as [c0|] eqn:E; simpl.
  - rewrite <- insert_delete_eq.
    rewrite map_fold_insert_L; [|intros; lia|apply lookup_delete_eq].
    rewrite (map_fold_delete_L _ _ x c0 m); [lia|intros; lia|done].
  - rewrite map_fold_insert_L; [lia|intros; lia|done].
Qed.

Lemma count_frequencies_snoc (image : list Z) (x : Z) :
  count_frequencies (image ++ [x])
  = <[x := int_add (default 0 (count_frequencies image !! x)) 1]> (count_frequencies image).
Proof. unfold count_frequencies. by rewrite foldl_snoc. Qed.

Lemma occurrences_bounds (p : Z) (image : list Z) :
  0 ≤ occurrences p image ≤ Z.of_nat (length image).
Proof. unfold occurrences. pose proof (length_filter (fun x => x = p) image). lia. Qed.

Lemma occurrences_snoc (p x : Z) (image : list Z) :
  occurrences p (image ++ [x])
  = occurrences p image + (if decide (x = p) then 1 else 0).
Proof.
  unfold occurrences. rewrite filter_app, length_app, filter_cons, filter_nil.
  case_decide; simpl; lia.
Qed.

Lemma count_frequencies_counts (image : list Z) :
  Z.of_nat (length image) ≤ INT_MAX →
  (∀ p, default 0 (count_frequencies image !! p) = occurrences p image) ∧
  total_frequency (count_frequencies image) = Z.of_nat (length image).
Proof.
  induction image as [|x image IH] using rev_ind; intros Hlen.
  { split; [intros p|done].
    change (count_frequencies []) with (∅ : gmap Z Z). by rewrite lookup_empty. }
  rewrite length_app in Hlen |- *. simpl in Hlen |- *.
  destruct IH as [IHc IHt]; [lia|].
  rewrite count_frequencies_snoc.
  pose proof (occurrences_bounds x image) as Hocc.
  assert (Hadd : int_add (default 0 (count_frequencies image !! x)) 1
                 = occurrences x image + 1).
  { rewrite IHc. apply int_add_exact. unfold in_int, INT_MIN, INT_MAX in *. lia. }
  rewrite Hadd. split.
  - intros p. rewrite occurrences_snoc. destruct (decide (x = p)) as [->|Hne].
    + rewrite lookup_insert_eq. done.
    + rewrite lookup_insert_ne by done. rewrite IHc. lia.
  - rewrite total_frequency_insert, IHc, IHt. lia.
Qed.

(** * The claims of the specification *)

(** C1 (what the code does).  The round trip fails on four kinds of images.
    An image of one sample decodes to the empty image, whatever the queue and
    the iteration order: the single leaf has the empty code, so no bit is
    written.  The empty image makes [buildHuffmanTree] read the top of an
    empty queue.  With the list queue, the image 1, 2 decodes to eight
    samples (its two bits are written as the byte 1 and read back as
    00000001), and the image 0, 2, 0, 2, 1, 2, 1, 2 loses its zeros (the
    value 0 has no code). *)
Theorem roundtrip_fails
    `{PQ : PriorityQueue Node Compare} `{UI : UnorderedIteration} :
  compress_decompress [7] 1 1 = Ok [] ∧
  compress_decompress [] 0 0 = Err UndefinedBehaviour ∧
  compress_decompress (PQ := ListQueue) (UI := KeyOrder) [1; 2] 2 1
    = Ok [1; 1; 1; 1; 1; 1; 1; 2] ∧
  compress_decompress (PQ := ListQueue) (UI := KeyOrder) [0; 2; 0; 2; 1; 2; 1; 2] 4 2
    = Ok [2; 2; 1; 2; 1; 2].
Proof.
  split; [|split; [|split; by vm_compute]].
  - unfold compress_decompress.
    change (count_frequencies [7]) with ({[7 := 1]} : gmap Z Z).
    rewrite buildHuffmanTree_singleton. by vm_compute.
  - unfold compress_decompress.
    change (count_frequencies []) with (∅ : gmap Z Z).
    by rewrite buildHuffmanTree_empty.
Qed.

(** C2 (what the code does).  A single bit 1 is written as the byte 1 and
    read back as the eight characters 00000001; three bits 101 come back as
    00000101.  A whole byte comes back as it was. *)
Theorem pack_unpack_examples :
  (writeCompressed (str "1") 1 1 ≫= readCompressed) = Ok (str "00000001", 1, 1, 1) ∧
  (writeCompressed (str "101") 1 1 ≫= readCompressed) = Ok (str "00000101", 1, 1, 3) ∧
  (writeCompressed (str "10100011") 1 1 ≫= readCompressed) = Ok (str "10100011", 1, 1, 8).
Proof. repeat split; by vm_compute. Qed.

(** C3 (what the code does).  The three bits 101 are written as one payload
    byte of value 5, that is 00000101: they stand in the low-order positions
    and the padding zeros in the high-order ones.  Left-aligned the byte
    would be 160. *)
Theorem final_byte_is_right_aligned :
  writeCompressed (str "101") 1 1 = Ok (int_bytes 3 ++ int_bytes 1 ++ int_bytes 1 ++ [5]) ∧
  bitset8_to_string 5 = str "00000101" ∧
  bitset8_to_string 160 = str "10100000".
Proof. repeat split; by vm_compute. Qed.

(** C4.  For every frequency table with at least one entry the code table
    that [generateHuffmanCodes] reads off the tree of [buildHuffmanTree] is
    prefix-free: the codes of two different symbols are no prefixes of one
    another. *)
Theorem codes_are_prefix_free
    `{PQ : PriorityQueue Node Compare} `{UI : UnorderedIteration} (freq : gmap Z Z) :
  freq ≠ ∅ →
  ∃ root, buildHuffmanTree freq = Ok root ∧
          prefix_free (generateHuffmanCodes root [] ∅).
Proof.
  intros Hne. destruct (buildHuffmanTree_spec freq Hne) as (root & Hb & Hspec).
  exists root. split; [done|].
  apply generate_prefix_free. by apply (spec_build_huffman_tree freq).
Qed.

Lemma codes_are_prefix_free_witness :
  classic_table ≠ ∅ ∧
  ∃ root, buildHuffmanTree (PQ := ListQueue) (UI := KeyOrder) classic_table = Ok root ∧
          prefix_free (generateHuffmanCodes root [] ∅).
Proof.
  split; [exact classic_table_nonempty|].
  exact (codes_are_prefix_free classic_table classic_table_nonempty).
Defined.

(** C5 (what the code does).  A leaf whose pixel is 0 receives no entry: the
    test [root->pixel != 0] that tells leaves from internal nodes skips it.
    A table with one symbol yields a single leaf, whose code is the empty
    string. *)
Theorem zero_and_single_symbol_codes
    `{PQ : PriorityQueue Node Compare} `{UI : UnorderedIteration} :
  (∃ root, buildHuffmanTree (list_to_map [(0, 3); (5, 2)]) = Ok root ∧
           0 ∈ symbols_of root ∧
           generateHuffmanCodes root [] ∅ !! 0 = None) ∧
  (buildHuffmanTree {[7 := 100]} = Ok (new_Node 7 100) ∧
   generateHuffmanCodes (new_Node 7 100) [] ∅ !! 7 = Some []).
Proof.
  split; [|split; [apply buildHuffmanTree_singleton|done]].
  destruct (buildHuffmanTree_spec (list_to_map [(0, 3); (5, 2)])) as (root & Hb & Hspec).
  { simpl. apply insert_non_empty. }
  exists root. split; [done|].
  pose proof (spec_build_huffman_tree _ _ Hspec) as Ht.
  split; [|by apply generate_no_code_for_zero].
  rewrite (spec_build_symbols _ _ Hspec).
  apply list_elem_of_fmap. exists (0, 3). split; [done|].
  by apply elem_of_map_to_list.
Qed.

(** C6.  For every frequency table with at least one entry,
    [buildHuffmanTree] seeds the queue with one leaf per entry, carrying the
    entry's symbol and frequency, and returns a root; the root is reached from
    the seeded queue by repeatedly taking out the two nodes of lowest
    frequency, the first as left child and the second as right child of a new
    node whose frequency is their ([int]) sum, and putting that node back,
    until one node is left.  When the counts are not negative and add up to
    at most [INT_MAX], every one of these sums is exact. *)
Theorem buildHuffmanTree_merges_two_lowest
    `{PQ : PriorityQueue Node Compare} `{UI : UnorderedIteration} (freq : gmap Z Z) :
  freq ≠ ∅ →
  pq_elems (seed_heap (iterate freq)) ≡ₚ leaf_of <$> map_to_list freq ∧
  ∃ root, buildHuffmanTree freq = Ok root ∧
          spec_merge (pq_elems (seed_heap (iterate freq))) root ∧
          spec_buildHuffmanTree freq root ∧
          (map_Forall (fun _ count => 0 ≤ count) freq →
           total_frequency freq ≤ INT_MAX →
           sums_exact root).
Proof.
  intros Hne. split; [apply seed_heap_table|].
  destruct (buildHuffmanTree_run freq Hne) as (root & Hb & Hm).
  pose proof (seed_heap_table freq) as Hseed.
  exists root. split; [done|]. split; [done|]. split.
  - by exists (pq_elems (seed_heap (iterate freq))).
  - intros Hpos Hmax. rewrite total_frequency_entries in Hmax.
    apply (spec_merge_sums_exact _ _ Hm).
    + rewrite Hseed. apply leaves_sums_exact.
    + rewrite Hseed. by apply leaves_nonneg.
    + by rewrite (bag_frequency_perm _ _ Hseed).
Qed.

Lemma buildHuffmanTree_merges_two_lowest_witness :
  classic_table ≠ ∅ ∧
  pq_elems (seed_heap (PQ := ListQueue) (iterate (UnorderedIteration := KeyOrder) classic_table))
    ≡ₚ leaf_of <$> map_to_list classic_table ∧
  ∃ root, buildHuffmanTree (PQ := ListQueue) (UI := KeyOrder) classic_table = Ok root ∧
          spec_merge (pq_elems (seed_heap (PQ := ListQueue)
                                  (iterate (UnorderedIteration := KeyOrder) classic_table))) root ∧
          spec_buildHuffmanTree classic_table root ∧
          (map_Forall (fun _ count => 0 ≤ count) classic_table →
           total_frequency classic_table ≤ INT_MAX →
           sums_exact root).
Proof.
  split; [exact classic_table_nonempty|].
  exact (buildHuffmanTree_merges_two_lowest classic_table classic_table_nonempty).
Defined.

(** C7 (what the code does).  With zero samples the frequency table is empty
    and no check is made: [buildHuffmanTree] reads [top()] of the empty
    queue, which is undefined, and so is the whole run; no failure is
    reported. *)
Theorem empty_input_is_undefined
    `{PQ : PriorityQueue Node Compare} `{UI : UnorderedIteration} (width height : Z) :
  count_frequencies [] = ∅ ∧
  buildHuffmanTree ∅ = Err UndefinedBehaviour ∧
  compress_decompress [] width height = Err UndefinedBehaviour.
Proof.
  split; [done|]. split; [apply buildHuffmanTree_empty|].
  unfold compress_decompress. simpl. change (count_frequencies []) with (∅ : gmap Z Z).
  by rewrite buildHuffmanTree_empty.
Qed.

(** C8 as the code has it.  When a bit stream consists of the paths of
    leaves with non-zero pixels followed by bits that leave the cursor on an
    internal node, [decompressImage] reports no failure: it returns the
    pixels of the complete paths, and the trailing bits are dropped without
    any symbol being emitted for them. *)
Theorem incomplete_path_is_dropped
    (root : Node) (symbols : list (cstring * Z)) (tail : cstring) (width height : Z) :
  huffman_tree root →
  Forall (fun s => leaf_at root s.1 s.2 ∧ s.2 ≠ 0) symbols →
  is_internal (walk root tail) →
  decompress_loop root (concat symbols.*1 ++ tail) root [] = Ok (walk root tail, symbols.*2) ∧
  decompressImage (concat symbols.*1 ++ tail) root width height = Ok symbols.*2.
Proof.
  intros Ht Hsym Htail.
  pose proof (internal_of_walk root tail Ht Htail) as Hroot.
  pose proof (decompress_loop_paths root symbols Hroot Ht Hsym tail [] Htail) as Hloop.
  simpl in Hloop. split; [done|].
  unfold decompressImage. by rewrite Hloop.
Qed.

Lemma incomplete_path_is_dropped_witness :
  huffman_tree classic_tree ∧
  Forall (fun s => leaf_at classic_tree s.1 s.2 ∧ s.2 ≠ 0) [(str "0", 70); (str "100", 67)] ∧
  is_internal (walk classic_tree (str "11")) ∧
  decompress_loop classic_tree (str "010011") classic_tree []
    = Ok (node 0 30 (node 0 14 (new_Node 65 5) (new_Node 66 9)) (new_Node 69 16), [70; 67]) ∧
  decompressImage (str "010011") classic_tree 2 1 = Ok [70; 67].
Proof.
  assert (Ht : huffman_tree classic_tree) by exact classic_tree_shape.
  assert (Hs : Forall (fun s => leaf_at classic_tree s.1 s.2 ∧ s.2 ≠ 0)
                      [(str "0", 70); (str "100", 67)]).
  { repeat constructor; simpl; discriminate. }
  assert (Hi : is_internal (walk classic_tree (str "11"))).
  { exists 30, (node 0 14 (new_Node 65 5) (new_Node 66 9)), (new_Node 69 16).
    split; [reflexivity|split; repeat constructor]. }
  split; [exact Ht|]. split; [exact Hs|]. split; [exact Hi|].
  exact (incomplete_path_is_dropped classic_tree [(str "0", 70); (str "100", 67)]
           (str "11") 2 1 Ht Hs Hi).
Defined.

(** C8 as the specification words it fails.  On the classic tree the stream
    01 leaves the cursor on an internal node after the code of F, and the
    call returns [70] without a failure.  In the pipeline: for
    [sample_image] the payload is the two bytes 255 and 84; with the final
    byte changed to 86 the stream ends in the middle of a path, and the call
    returns twelve pixels, the last one wrong, without a failure. *)
Lemma incomplete_path_not_reported :
  (∃ cursor, decompress_loop classic_tree (str "01") classic_tree [] = Ok (cursor, [70]) ∧
             is_internal cursor ∧
             decompressImage (str "01") classic_tree 2 1 = Ok [70]) ∧
  buildHuffmanTree (PQ := ListQueue) (UI := KeyOrder) (count_frequencies sample_image)
    = Ok sample_tree ∧
  writeCompressed (encode (generateHuffmanCodes sample_tree [] ∅) sample_image) 12 1
    = Ok (int_bytes 16 ++ int_bytes 12 ++ int_bytes 1 ++ [255; 84]) ∧
  readCompressed (int_bytes 16 ++ int_bytes 12 ++ int_bytes 1 ++ [255; 86])
    = Ok (str "1111111101010110", 12, 1, 16) ∧
  decompress_loop sample_tree (str "1111111101010110") sample_tree []
    = Ok (node 0 4 (new_Node 1 1) (new_Node 2 3), [3; 3; 3; 3; 3; 3; 3; 3; 2; 2; 2; 3]) ∧
  decompressImage (str "1111111101010110") sample_tree 12 1
    = Ok [3; 3; 3; 3; 3; 3; 3; 3; 2; 2; 2; 3].
Proof.
  split.
  - exists (node 0 55 (node 0 25 (new_Node 67 12) (new_Node 68 13))
                   (node 0 30 (node 0 14 (new_Node 65 5) (new_Node 66 9)) (new_Node 69 16))).
    split; [by vm_compute|]. split; [|by vm_compute].
    eexists _, _, _. split; [reflexivity|split; repeat constructor].
  - repeat split; by vm_compute.
Qed.

(** C9.  For the table {A:5, B:9, C:12, D:13, E:16, F:45}, of total
    frequency 100, [buildHuffmanTree] returns a tree, whatever the priority
    queue and the iteration order, and the codes that [generateHuffmanCodes]
    reads off it have the total weighted length 224. *)
Theorem classic_example_weighted_length
    `{PQ : PriorityQueue Node Compare} `{UI : UnorderedIteration} :
  total_frequency classic_table = 100 ∧
  ∃ root, buildHuffmanTree classic_table = Ok root ∧
          weighted_code_length classic_table (generateHuffmanCodes root [] ∅) = 224.
Proof.
  split; [by vm_compute|].
  destruct (buildHuffmanTree_spec classic_table classic_table_nonempty)
    as (root & Hb & bag & Hbag & Hm).
  exists root. split; [done|].
  assert (classic_tree = root) as <-.
  { apply (spec_merge_no_ties bag root Hm 5 (leaf_of <$> classic_entries)).
    - by rewrite Hbag, classic_table_leaves.
    - by vm_compute. }
  by vm_compute.
Qed.

(** C10.  [decompressImage] does not look at its width and height: any two
    pairs give the same result, and the length of the decoded sequence is
    not compared with their product. *)
Theorem decompressImage_ignores_dimensions :
  (∀ (compressedData : cstring) (root : Node) (w1 h1 w2 h2 : Z),
     decompressImage compressedData root w1 h1 = decompressImage compressedData root w2 h2) ∧
  (∃ (compressedData : cstring) (root : Node) (w h : Z) (image : list Z),
     decompressImage compressedData root w h = Ok image ∧
     Z.of_nat (length image) ≠ w * h).
Proof.
  split.
  - intros compressedData root w1 h1 w2 h2. unfold decompressImage.
    by destruct (decompress_loop root compressedData root []) as [[cursor image]|].
  - exists (str "0"), classic_tree, 5, 7, [70]. split; [by vm_compute|].
    simpl. lia.
Qed.

(** * Further properties of the codec *)

(** X1.  When the image has at least two different values, none of them 0,
    and its code bits fill whole bytes (and their number fits the [int]
    loop counter), the decompressed image is the image, whatever the queue
    and the iteration order. *)
Theorem roundtrip_on_whole_bytes
    `{PQ : PriorityQueue Node Compare} `{UI : UnorderedIteration}
    (image : list Z) (a b : Z) (width height : Z) (root : Node) :
  a ∈ image → b ∈ image → a ≠ b → 0 ∉ image →
  buildHuffmanTree (count_frequencies image) = Ok root →
  (length (encode (generateHuffmanCodes root [] ∅) image) mod 8 = 0)%nat →
  Z.of_nat (length (encode (generateHuffmanCodes root [] ∅) image)) ≤ INT_MAX - 7 →
  in_int width → in_int height →
  compress_decompress image width height = Ok image.
Proof.
  intros Ha Hb Hab H0 Hbuild Hmod HL Hw Hh.
  destruct (image_tree image a b Ha Hb Hab H0) as (root' & Hbuild' & Ht & Hint & Hcodes).
  rewrite Hbuild in Hbuild'. injection Hbuild' as <-.
  set (codes := generateHuffmanCodes root [] ∅) in *.
  assert (Hbits : Forall is_bit (encode codes image)).
  { rewrite encode_concat. apply Forall_concat, Forall_fmap.
    apply (Forall_impl _ _ _ Hcodes). intros p [Hp _]. by apply leaf_at_bits in Hp. }
  destruct (write_then_read (encode codes image) width height Hbits HL Hw Hh)
    as (file & Hwrite & _ & Hread & _).
  rewrite unpacked_whole in Hread by done.
  unfold compress_decompress. rewrite (bind_Ok _ _ _ Hbuild). fold codes. simpl.
  rewrite (bind_Ok _ _ _ Hwrite), (bind_Ok _ _ _ Hread).
  pose proof (decompress_loop_paths root ((fun p => (code_of codes p, p)) <$> image)
                Hint Ht) as Hdec.
  rewrite <- !list_fmap_compose in Hdec.
  change (fst ∘ (fun p => (code_of codes p, p))) with (code_of codes) in Hdec.
  change (snd ∘ (fun p : Z => (code_of codes p, p))) with (@id Z) in Hdec.
  rewrite list_fmap_id in Hdec.
  specialize (Hdec ltac:(by apply Forall_fmap) [] [] Hint).
  rewrite app_nil_r, <- encode_concat in Hdec. simpl in Hdec.
  unfold decompressImage. by rewrite Hdec.
Qed.

Lemma roundtrip_on_whole_bytes_witness :
  3 ∈ sample_image ∧ 2 ∈ sample_image ∧ 3 ≠ 2 ∧ (0 ∉ sample_image) ∧
  buildHuffmanTree (PQ := ListQueue) (UI := KeyOrder) (count_frequencies sample_image)
    = Ok sample_tree ∧
  (length (encode (generateHuffmanCodes sample_tree [] ∅) sample_image) mod 8 = 0)%nat ∧
  Z.of_nat (length (encode (generateHuffmanCodes sample_tree [] ∅) sample_image))
    ≤ INT_MAX - 7 ∧
  in_int 12 ∧ in_int 1 ∧
  compress_decompress (PQ := ListQueue) (UI := KeyOrder) sample_image 12 1 = Ok sample_image.
Proof.
  assert (H3 : 3 ∈ sample_image) by (refine (bool_decide_unpack _ _); vm_compute; exact I).
  assert (H2 : 2 ∈ sample_image) by (refine (bool_decide_unpack _ _); vm_compute; exact I).
  assert (Hne : 3 ≠ 2) by discriminate.
  assert (H0 : 0 ∉ sample_image) by (refine (bool_decide_unpack _ _); vm_compute; exact I).
  assert (Hb : buildHuffmanTree (PQ := ListQueue) (UI := KeyOrder)
                 (count_frequencies sample_image) = Ok sample_tree) by (vm_compute; reflexivity).
  assert (Hm : (length (encode (generateHuffmanCodes sample_tree [] ∅) sample_image)
                mod 8 = 0)%nat) by (vm_compute; reflexivity).
  assert (Hl : Z.of_nat (length (encode (generateHuffmanCodes sample_tree [] ∅) sample_image))
               ≤ INT_MAX - 7) by (vm_compute; discriminate).
  assert (Hw : in_int 12) by (unfold in_int, INT_MIN, INT_MAX; lia).
  assert (Hh : in_int 1) by (unfold in_int, INT_MIN, INT_MAX; lia).
  repeat (split; [assumption|]).
  exact (roundtrip_on_whole_bytes sample_image 3 2 12 1 sample_tree H3 H2 Hne H0 Hb Hm Hl Hw Hh).
Defined.

(** X2.  Writing a string of '0' and '1' characters and reading the file
    back: the file has twelve header bytes and one payload byte for every
    started group of eight bits; the string read back keeps the whole groups
    and shows a shorter last group behind its padding zeros ([unpacked]); the
    dimensions and the bit count read are the ones written. *)
Theorem write_then_read_unpacked (s : cstring) (width height : Z) :
  Forall is_bit s → Z.of_nat (length s) ≤ INT_MAX - 7 →
  in_int width → in_int height →
  ∃ file,
    writeCompressed s width height = Ok file ∧
    length file = (12 + (length s + 7) / 8)%nat ∧
    readCompressed file = Ok (unpacked s, width, height, Z.of_nat (length s)).
Proof.
  intros Hbits HL Hw Hh.
  destruct (write_then_read s width height Hbits HL Hw Hh) as (file & Hwrite & Hlen & Hread & _).
  by exists file.
Qed.

Lemma write_then_read_unpacked_witness :
  Forall is_bit (str "101") ∧ Z.of_nat (length (str "101")) ≤ INT_MAX - 7 ∧
  in_int 1 ∧ in_int 1 ∧
  ∃ file,
    writeCompressed (str "101") 1 1 = Ok file ∧
    length file = (12 + (length (str "101") + 7) / 8)%nat ∧
    readCompressed file = Ok (unpacked (str "101"), 1, 1, Z.of_nat (length (str "101"))).
Proof.
  assert (Hb : Forall is_bit (str "101")) by (repeat constructor; by (left + right)).
  assert (Hl : Z.of_nat (length (str "101")) ≤ INT_MAX - 7) by (vm_compute; discriminate).
  assert (Hw : in_int 1) by (unfold in_int, INT_MIN, INT_MAX; lia).
  repeat (split; [assumption|]).
  exact (write_then_read_unpacked (str "101") 1 1 Hb Hl Hw Hw).
Defined.

(** X3.  A bit string whose length is a multiple of eight is read back as
    it was written. *)
Theorem pack_unpack_whole_bytes (s : cstring) (width height : Z) :
  Forall is_bit s → (length s mod 8 = 0)%nat → Z.of_nat (length s) ≤ INT_MAX - 7 →
  in_int width → in_int height →
  (writeCompressed s width height ≫= readCompressed)
  = Ok (s, width, height, Z.of_nat (length s)).
Proof.
  intros Hbits Hmod HL Hw Hh.
  destruct (write_then_read s width height Hbits HL Hw Hh) as (file & Hwrite & _ & Hread & _).
  rewrite (bind_Ok _ _ _ Hwrite), Hread. by rewrite unpacked_whole.
Qed.

Lemma pack_unpack_whole_bytes_witness :
  Forall is_bit (str "10100011") ∧ (length (str "10100011") mod 8 = 0)%nat ∧
  Z.of_nat (length (str "10100011")) ≤ INT_MAX - 7 ∧ in_int 4 ∧ in_int 2 ∧
  (writeCompressed (str "10100011") 4 2 ≫= readCompressed)
  = Ok (str "10100011", 4, 2, Z.of_nat (length (str "10100011"))).
Proof.
  assert (Hb : Forall is_bit (str "10100011")) by (repeat constructor; by (left + right)).
  assert (Hm : (length (str "10100011") mod 8 = 0)%nat) by reflexivity.
  assert (Hl : Z.of_nat (length (str "10100011")) ≤ INT_MAX - 7) by (vm_compute; discriminate).
  assert (Hw : in_int 4) by (unfold in_int, INT_MIN, INT_MAX; lia).
  assert (Hh : in_int 2) by (unfold in_int, INT_MIN, INT_MAX; lia).
  repeat (split; [assumption|]).
  exact (pack_unpack_whole_bytes (str "10100011") 4 2 Hb Hm Hl Hw Hh).
Defined.

(** X4.  A bit string whose length is not a multiple of eight is read back
    longer than it was written: the string returned has the length rounded
    up to the next multiple of eight, so it is never the string written. *)
Theorem pack_unpack_partial_byte (s : cstring) (width height : Z) :
  Forall is_bit s → (length s mod 8 ≠ 0)%nat → Z.of_nat (length s) ≤ INT_MAX - 7 →
  in_int width → in_int height →
  ∃ s', (writeCompressed s width height ≫= readCompressed)
        = Ok (s', width, height, Z.of_nat (length s)) ∧
        length s' = (length s + (8 - length s mod 8))%nat ∧ s' ≠ s.
Proof.
  intros Hbits Hmod HL Hw Hh.
  destruct (write_then_read s width height Hbits HL Hw Hh) as (file & Hwrite & _ & Hread & _).
  exists (unpacked s). rewrite (bind_Ok _ _ _ Hwrite), Hread.
  pose proof (length_unpacked s Hmod) as Hlen.
  pose proof (Nat.mod_upper_bound (length s) 8).
  split; [done|]. split; [done|]. intros E. rewrite E in Hlen. lia.
Qed.

Lemma pack_unpack_partial_byte_witness :
  Forall is_bit (str "1") ∧ (length (str "1") mod 8 ≠ 0)%nat ∧
  Z.of_nat (length (str "1")) ≤ INT_MAX - 7 ∧ in_int 1 ∧ in_int 1 ∧
  ∃ s', (writeCompressed (str "1") 1 1 ≫= readCompressed)
        = Ok (s', 1, 1, Z.of_nat (length (str "1"))) ∧
        length s' = (length (str "1") + (8 - length (str "1") mod 8))%nat ∧ s' ≠ str "1".
Proof.
  assert (Hb : Forall is_bit (str "1")) by (repeat constructor; by right).
  assert (Hm : (length (str "1") mod 8 ≠ 0)%nat) by discriminate.
  assert (Hl : Z.of_nat (length (str "1")) ≤ INT_MAX - 7) by (vm_compute; discriminate).
  assert (Hw : in_int 1) by (unfold in_int, INT_MIN, INT_MAX; lia).
  repeat (split; [assumption|]).
  exact (pack_unpack_partial_byte (str "1") 1 1 Hb Hm Hl Hw Hw).
Defined.

(** X5.  On a tree of the construction with at least two leaves and no leaf
    of pixel 0, [decompressImage] returns an image for every string: no
    input makes it fail. *)
Theorem decompressImage_never_fails (root : Node) :
  huffman_tree root → is_internal root → 0 ∉ symbols_of root →
  ∀ (compressedData : cstring) (width height : Z),
    ∃ image, decompressImage compressedData root width height = Ok image.
Proof.
  intros Ht Hint H0 compressedData width height.
  destruct (decompress_loop_total root Ht Hint H0 compressedData root [] Ht Hint H0)
    as (cursor & image & Hloop).
  exists image. unfold decompressImage. by rewrite Hloop.
Qed.

Lemma decompressImage_never_fails_witness :
  huffman_tree sample_tree ∧ is_internal sample_tree ∧ (0 ∉ symbols_of sample_tree) ∧
  ∀ (compressedData : cstring) (width height : Z),
    ∃ image, decompressImage compressedData sample_tree width height = Ok image.
Proof.
  assert (Ht : huffman_tree sample_tree) by exact sample_tree_shape.
  assert (Hi : is_internal sample_tree).
  { exists 12, (node 0 4 (new_Node 1 1) (new_Node 2 3)), (new_Node 3 8).
    split; [reflexivity|split; repeat constructor]. }
  assert (H0 : 0 ∉ symbols_of sample_tree)
    by (refine (bool_decide_unpack _ _); vm_compute; exact I).
  repeat (split; [assumption|]).
  exact (decompressImage_never_fails sample_tree Ht Hi H0).
Defined.

(** X6.  The leaves of the tree are the symbols of the table, each once:
    the tree has as many leaves as the table has entries. *)
Theorem tree_leaves_are_table_symbols
    `{PQ : PriorityQueue Node Compare} `{UI : UnorderedIteration} (freq : gmap Z Z) :
  freq ≠ ∅ →
  ∃ root, buildHuffmanTree freq = Ok root ∧ huffman_tree root ∧
          symbols_of root ≡ₚ (map_to_list freq).*1 ∧
          NoDup (symbols_of root) ∧
          length (symbols_of root) = size freq.
Proof.
  intros Hne. destruct (buildHuffmanTree_spec freq Hne) as (root & Hb & Hspec).
  exists root. split; [done|]. split; [by apply (spec_build_huffman_tree freq)|].
  pose proof (spec_build_symbols freq root Hspec) as Hsym.
  split; [done|]. split; [by apply (spec_build_NoDup freq)|].
  by rewrite Hsym, length_fmap, length_map_to_list.
Qed.

Lemma tree_leaves_are_table_symbols_witness :
  classic_table ≠ ∅ ∧
  ∃ root, buildHuffmanTree (PQ := ListQueue) (UI := KeyOrder) classic_table = Ok root ∧
          huffman_tree root ∧
          symbols_of root ≡ₚ (map_to_list classic_table).*1 ∧
          NoDup (symbols_of root) ∧
          length (symbols_of root) = size classic_table.
Proof.
  split; [exact classic_table_nonempty|].
  exact (tree_leaves_are_table_symbols classic_table classic_table_nonempty).
Defined.

(** X7.  When the counts of the table are not negative and their sum fits
    an [int], no addition wraps around and the frequency of the root is the
    sum of all counts. *)
Theorem root_frequency_is_total
    `{PQ : PriorityQueue Node Compare} `{UI : UnorderedIteration}
    (freq : gmap Z Z) (root : Node) :
  map_Forall (fun _ count => 0 ≤ count) freq →
  total_frequency freq ≤ INT_MAX →
  buildHuffmanTree freq = Ok root →
  freq_of root = total_frequency freq.
Proof.
  intros Hpos Hmax Hbuild. by apply buildHuffmanTree_root_frequency.
Qed.

Lemma root_frequency_is_total_witness :
  map_Forall (fun _ count => 0 ≤ count) (count_frequencies sample_image) ∧
  total_frequency (count_frequencies sample_image) ≤ INT_MAX ∧
  buildHuffmanTree (PQ := ListQueue) (UI := KeyOrder) (count_frequencies sample_image)
    = Ok sample_tree ∧
  freq_of sample_tree = total_frequency (count_frequencies sample_image).
Proof.
  assert (Hp : map_Forall (fun _ count => 0 ≤ count) (count_frequencies sample_image)).
  { apply map_Forall_to_list. vm_compute. repeat constructor; discriminate. }
  assert (Hm : total_frequency (count_frequencies sample_image) ≤ INT_MAX)
    by (vm_compute; discriminate).
  assert (Hb : buildHuffmanTree (PQ := ListQueue) (UI := KeyOrder)
                 (count_frequencies sample_image) = Ok sample_tree) by (vm_compute; reflexivity).
  repeat (split; [assumption|]).
  exact (root_frequency_is_total (count_frequencies sample_image) sample_tree Hp Hm Hb).
Defined.

(** X8.  The number of bits of the encoded image is the sum, over the
    samples, of the lengths of their codes. *)
Theorem encoded_length_is_sum_of_code_lengths
    (huffmanCode : gmap Z cstring) (image : list Z) :
  length (encode huffmanCode image)
  = sum_list ((fun pixel => length (code_of huffmanCode pixel)) <$> image).
Proof.
  rewrite encode_concat.
  induction image as [|p image IH]; [done|].
  rewrite !fmap_cons. simpl. by rewrite length_app, IH.
Qed.

(** X9.  When the number of bits is not a multiple of eight, the last byte
    of the file, read most significant bit first, is the padding zeros
    followed by the remaining bits: the remaining bits stand in the low-order
    positions of the byte. *)
Theorem final_byte_padding_in_front (s : cstring) (width height : Z) :
  Forall is_bit s → (length s mod 8 ≠ 0)%nat → Z.of_nat (length s) ≤ INT_MAX - 7 →
  in_int width → in_int height →
  ∃ file v,
    writeCompressed s width height = Ok file ∧ last file = Some v ∧
    bitset8_to_string v
    = replicate (8 - length s mod 8) ch0 ++ drop (8 * (length s / 8)) s.
Proof.
  intros Hbits Hmod HL Hw Hh.
  destruct (write_then_read s width height Hbits HL Hw Hh)
    as (file & Hwrite & _ & _ & Hlast).
  destruct (Hlast Hmod) as (v & Hv & Hstr).
  exists file, v. split; [done|]. split; [done|].
  rewrite Hstr. unfold pad8. rewrite length_drop.
  pose proof (Nat.div_mod_eq (length s) 8).
  by replace (length s - 8 * (length s / 8))%nat with (length s mod 8)%nat by lia.
Qed.

Lemma final_byte_padding_in_front_witness :
  Forall is_bit (str "101") ∧ (length (str "101") mod 8 ≠ 0)%nat ∧
  Z.of_nat (length (str "101")) ≤ INT_MAX - 7 ∧ in_int 1 ∧ in_int 1 ∧
  ∃ file v,
    writeCompressed (str "101") 1 1 = Ok file ∧ last file = Some v ∧
    bitset8_to_string v
    = replicate (8 - length (str "101") mod 8) ch0
      ++ drop (8 * (length (str "101") / 8)) (str "101").
Proof.
  assert (Hb : Forall is_bit (str "101")) by (repeat constructor; by (left + right)).
  assert (Hm : (length (str "101") mod 8 ≠ 0)%nat) by discriminate.
  assert (Hl : Z.of_nat (length (str "101")) ≤ INT_MAX - 7) by (vm_compute; discriminate).
  assert (Hw : in_int 1) by (unfold in_int, INT_MIN, INT_MAX; lia).
  repeat (split; [assumption|]).
  exact (final_byte_padding_in_front (str "101") 1 1 Hb Hm Hl Hw Hw).
Defined.

(** X10.  An image that repeats one value decodes to the empty image: its
    tree is a single leaf, the code of the value is empty (or missing, for
    the value 0), and no bit is written. *)
Theorem single_value_image_decodes_to_empty
    `{PQ : PriorityQueue Node Compare} `{UI : UnorderedIteration}
    (p : Z) (n : nat) (width height : Z) :
  in_int width → in_int height →
  compress_decompress (replicate (S n) p) width height = Ok [].
Proof.
  intros Hw Hh. unfold compress_decompress.
  destruct (count_frequencies_single p n) as [c ->].
  rewrite buildHuffmanTree_singleton. cbv beta iota zeta delta [mbind res_bind].
  assert (Hcode : code_of (generateHuffmanCodes (new_Node p c) [] ∅) p = []).
  { unfold code_of. simpl. case_decide; [by rewrite lookup_insert_eq|by rewrite lookup_empty]. }
  assert (Henc : encode (generateHuffmanCodes (new_Node p c) [] ∅) (replicate (S n) p) = []).
  { rewrite encode_concat. generalize (S n). intros m.
    induction m as [|m IH]; [done|]. by rewrite replicate_S, fmap_cons, Hcode. }
  rewrite Henc.
  destruct (write_then_read [] width height) as (file & Hwrite & _ & Hread & _);
    [constructor|vm_compute; discriminate|done|done|].
  rewrite Hwrite. cbv beta iota. rewrite Hread. reflexivity.
Qed.

Lemma single_value_image_decodes_to_empty_witness :
  in_int 10 ∧ in_int 10 ∧
  compress_decompress (PQ := ListQueue) (UI := KeyOrder) (replicate 100 7) 10 10 = Ok [].
Proof.
  assert (Hw : in_int 10) by (unfold in_int, INT_MIN, INT_MAX; lia).
  repeat (split; [assumption|]).
  exact (single_value_image_decodes_to_empty 7 99 10 10 Hw Hw).
Defined.

(** X11.  For an image of at most [INT_MAX] samples the table built in
    [main] has an entry exactly for the values that occur, holding the number
    of their occurrences, and the counts add up to the number of samples. *)
Theorem frequency_table_counts (image : list Z) :
  Z.of_nat (length image) ≤ INT_MAX →
  (∀ p, is_Some (count_frequencies image !! p) ↔ p ∈ image) ∧
  (∀ p, default 0 (count_frequencies image !! p) = occurrences p image) ∧
  total_frequency (count_frequencies image) = Z.of_nat (length image).
Proof.
  intros Hlen. split; [intros p; apply count_frequencies_dom|].
  by apply count_frequencies_counts.
Qed.

Lemma frequency_table_counts_witness :
  Z.of_nat (length sample_image) ≤ INT_MAX ∧
  (∀ p, is_Some (count_frequencies sample_image !! p) ↔ p ∈ sample_image) ∧
  (∀ p, default 0 (count_frequencies sample_image !! p) = occurrences p sample_image) ∧
  total_frequency (count_frequencies sample_image) = Z.of_nat (length sample_image).
Proof.
  assert (Hl : Z.of_nat (length sample_image) ≤ INT_MAX) by (vm_compute; discriminate).
  split; [exact Hl|]. exact (frequency_table_counts sample_image Hl).
Defined.

(** X12.  For an image of at most [INT_MAX] samples the frequency of the
    root of its tree is the number of samples. *)
Theorem root_frequency_is_sample_count
    `{PQ : PriorityQueue Node Compare} `{UI : UnorderedIteration}
    (image : list Z) (root : Node) :
  Z.of_nat (length image) ≤ INT_MAX →
  buildHuffmanTree (count_frequencies image) = Ok root →
  freq_of root = Z.of_nat (length image).
Proof.
  intros Hlen Hbuild. destruct (count_frequencies_counts image Hlen) as [Hc Ht].
  rewrite <- Ht. apply buildHuffmanTree_root_frequency; [|lia|done].
  intros p c Hp. specialize (Hc p). rewrite Hp in Hc. simpl in Hc.
  pose proof (occurrences_bounds p image). lia.
Qed.

Lemma root_frequency_is_sample_count_witness :
  Z.of_nat (length sample_image) ≤ INT_MAX ∧
  buildHuffmanTree (PQ := ListQueue) (UI := KeyOrder) (count_frequencies sample_image)
    = Ok sample_tree ∧
  freq_of sample_tree = Z.of_nat (length sample_image).
Proof.
  assert (Hl : Z.of_nat (length sample_image) ≤ INT_MAX) by (vm_compute; discriminate).
  assert (Hb : buildHuffmanTree (PQ := ListQueue) (UI := KeyOrder)
                 (count_frequencies sample_image) = Ok sample_tree) by (vm_compute; reflexivity).
  repeat (split; [assumption|]).
  exact (root_frequency_is_sample_count sample_image sample_tree Hl Hb).
Defined.

(** X13.  The code table has an entry exactly for the symbols of the
    frequency table other than 0; the entry of a symbol is the path to its
    leaf, and it is not empty when the table has more than one symbol. *)
Theorem code_table_entries
    `{PQ : PriorityQueue Node Compare} `{UI : UnorderedIteration} (freq : gmap Z Z) :
  freq ≠ ∅ →
  ∃ root, buildHuffmanTree freq = Ok root ∧
          (∀ p, is_Some (generateHuffmanCodes root [] ∅ !! p)
                ↔ p ≠ 0 ∧ is_Some (freq !! p)) ∧
          (∀ p code, generateHuffmanCodes root [] ∅ !! p = Some code →
                     leaf_at root code p ∧ ((1 < size freq)%nat → code ≠ [])).
Proof.
  intros Hne. destruct (buildHuffmanTree_spec freq Hne) as (root & Hb & Hspec).
  exists root. split; [done|].
  pose proof (spec_build_huffman_tree _ _ Hspec) as Ht.
  pose proof (spec_build_NoDup _ _ Hspec) as Hnd.
  pose proof (spec_build_symbols _ _ Hspec) as Hsym.
  assert (Hkey : ∀ p, p ∈ symbols_of root ↔ is_Some (freq !! p)).
  { intros p. rewrite Hsym, list_elem_of_fmap. split.
    - intros ([k c] & -> & Hin). apply elem_of_map_to_list in Hin. by exists c.
    - intros [c Hc]. exists (p, c). split; [done|]. by apply elem_of_map_to_list. }
  assert (Hentry : ∀ p code, generateHuffmanCodes root [] ∅ !! p = Some code →
                             p ≠ 0 ∧ leaf_at root code p).
  { intros p code Hp.
    apply (generate_lookup _ Ht) in Hp as [Hp|(Hp0 & path & -> & Hleaf)]; [|done].
    by rewrite lookup_empty in Hp. }
  split.
  - intros p. split.
    + intros [code Hp]. destruct (Hentry p code Hp) as [Hp0 Hleaf].
      split; [done|]. apply Hkey. by apply (leaf_at_symbol root code).
    + intros [Hp0 Hp]. apply Hkey in Hp.
      destruct (symbol_leaf_at _ _ Ht Hp) as [path Hpath].
      exists ([] ++ path). by apply generate_lookup_leaf.
  - intros p code Hp. destruct (Hentry p code Hp) as [Hp0 Hleaf].
    split; [done|]. intros Hsize.
    apply (leaf_at_internal_nonempty root code p); [|done].
    destruct (huffman_tree_cases _ Ht) as [(q & f & ->)|Hint]; [|done].
    apply Permutation_length in Hsym.
    rewrite length_fmap, length_map_to_list in Hsym. simpl in Hsym. lia.
Qed.

Lemma code_table_entries_witness :
  classic_table ≠ ∅ ∧
  ∃ root, buildHuffmanTree (PQ := ListQueue) (UI := KeyOrder) classic_table = Ok root ∧
          (∀ p, is_Some (generateHuffmanCodes root [] ∅ !! p)
                ↔ p ≠ 0 ∧ is_Some (classic_table !! p)) ∧
          (∀ p code, generateHuffmanCodes root [] ∅ !! p = Some code →
                     leaf_at root code p ∧ ((1 < size classic_table)%nat → code ≠ [])).
Proof.
  split; [exact classic_table_nonempty|].
  exact (code_table_entries classic_table classic_table_nonempty).
Defined.

(** * The image files, the container file and main *)

(** ** Formatted input *)

Lemma skipws_app (ws s : list Z) : blank ws → skipws (ws ++ s) = skipws s.
Proof. induction 1 as [|c ws Hc _ IH]; [done|]. simpl. by rewrite Hc. Qed.

Lemma skipws_head (c : Z) (s : list Z) : isspace c = false → skipws (c :: s) = c :: s.
Proof. intros Hc. simpl. by rewrite Hc. Qed.

Lemma skipws_split (s : list Z) :
  ∃ ws, blank ws ∧ s = ws ++ skipws s ∧
        (skipws s = [] ∨ ∃ c t, skipws s = c :: t ∧ isspace c = false).
Proof.
  induction s as [|c s (ws & Hws & Hs & Hhead)].
  - exists []. split; [constructor|]. split; [done|by left].
  - simpl. destruct (isspace c) eqn:Hc.
    + exists (c :: ws). split; [by constructor|]. split; [|done]. simpl. by rewrite <- Hs.
    + exists []. split; [constructor|]. split; [done|]. right. by exists c, s.
Qed.

Lemma take_token_split (s : list Z) :
  s = (take_token s).1 ++ (take_token s).2 ∧
  Forall (fun c => isspace c = false) (take_token s).1 ∧
  ((take_token s).2 = [] ∨ ∃ c t, (take_token s).2 = c :: t ∧ isspace c = true).
Proof.
  induction s as [|c s (Hs & Hall & Hrest)]; simpl.
  - split; [done|]. split; [constructor|by left].
  - destruct (isspace c) eqn:Hc; simpl.
    + split; [done|]. split; [constructor|]. right. by exists c, s.
    + destruct (take_token s) as [token s'']. simpl in *.
      split; [by rewrite Hs at 1|]. split; [by constructor|done].
Qed.

Lemma take_token_app (token t : list Z) :
  Forall (fun c => isspace c = false) token →
  (t = [] ∨ ∃ c t', t = c :: t' ∧ isspace c = true) →
  take_token (token ++ t) = (token, t).
Proof.
  induction 1 as [|c token Hc _ IH]; intros Ht; simpl.
  - destruct Ht as [->|(c & t' & -> & Hc)]; [done|]. simpl. by rewrite Hc.
  - rewrite Hc. by rewrite IH.
Qed.

Lemma extract_string_P5 (bytes : list Z) :
  (extract_string {| good := true; rest := bytes |}).1 = P5 ↔ has_magic bytes.
Proof.
  unfold extract_string, sentry. simpl. split.
  - destruct (skipws_split bytes) as (ws & Hws & Hs & Hhead).
    destruct (skipws bytes) as [|c s] eqn:E; [done|].
    pose proof (take_token_split (c :: s)) as (Htok & _ & Hrest).
    destruct (take_token (c :: s)) as [token s']. simpl in *. intros ->.
    exists ws, s'. split; [done|]. split; [|done]. by rewrite Hs, Htok.
  - intros (ws & t & Hws & -> & Ht).
    rewrite skipws_app by done. unfold P5. simpl.
    destruct Ht as [->|(c & t' & -> & Hc)]; simpl; [done|]. by rewrite Hc.
Qed.

Lemma extract_string_magic (ws t : list Z) :
  blank ws → (t = [] ∨ ∃ c t', t = c :: t' ∧ isspace c = true) →
  extract_string {| good := true; rest := ws ++ P5 ++ t |} = (P5, after_token t).
Proof.
  intros Hws Ht. unfold extract_string, sentry. simpl.
  rewrite skipws_app by done. unfold P5. simpl.
  destruct Ht as [->|(c & t' & -> & Hc)]; simpl; [done|]. by rewrite Hc.
Qed.

Lemma has_magic_dec (bytes : list Z) : has_magic bytes ∨ ¬ has_magic bytes.
Proof.
  rewrite <- extract_string_P5.
  destruct (decide ((extract_string {| good := true; rest := bytes |}).1 = P5)); tauto.
Qed.

(** ** Decimal numbers *)

Lemma digits_acc_app (fuel : nat) : ∀ n acc,
  digits_acc fuel n acc = digits_acc fuel n [] ++ acc.
Proof.
  induction fuel as [|fuel IH]; intros n acc; [done|]. simpl.
  destruct (n / 10 =? 0); [done|].
  rewrite (IH (n / 10) (_ :: acc)), (IH (n / 10) [_]). by rewrite <- app_assoc.
Qed.

Lemma isdigit_digit (n : Z) : isdigit (48 + n mod 10) = true.
Proof.
  pose proof (Z.mod_pos_bound n 10 ltac:(lia)). unfold isdigit.
  apply andb_true_iff. split; apply Z.leb_le; lia.
Qed.

Lemma digits_acc_digits (fuel : nat) : ∀ n acc,
  Forall (fun c => isdigit c = true) acc →
  Forall (fun c => isdigit c = true) (digits_acc fuel n acc).
Proof.
  induction fuel as [|fuel IH]; intros n acc Hacc; [done|]. simpl.
  assert (Forall (fun c => isdigit c = true) ((48 + n mod 10) :: acc))
    by (constructor; [apply isdigit_digit|done]).
  destruct (n / 10 =? 0); [done|]. by apply IH.
Qed.

Lemma digits_acc_nonempty (fuel : nat) (n : Z) (acc : list Z) :
  digits_acc (S fuel) n acc ≠ [].
Proof.
  rewrite digits_acc_app. simpl. destruct (n / 10 =? 0); [done|].
  rewrite digits_acc_app. by destruct (digits_acc fuel (n / 10) []).
Qed.

Lemma digits_acc_S (fuel : nat) (n : Z) (acc : list Z) :
  digits_acc (S fuel) n acc
  = if n / 10 =? 0 then (48 + n mod 10) :: acc
    else digits_acc fuel (n / 10) ((48 + n mod 10) :: acc).
Proof. reflexivity. Qed.

Lemma parse_digits_acc (fuel : nat) : ∀ n tail found,
  0 ≤ n < 2 ^ Z.of_nat (S fuel) →
  parse_digits (digits_acc (S fuel) n tail) 0 found = parse_digits tail n true.
Proof.
  induction fuel as [|fuel IH]; intros n tail found Hn.
  - change (2 ^ Z.of_nat 1) with 2 in Hn.
    assert (n = 0 ∨ n = 1) as [->| ->] by lia; reflexivity.
  - rewrite digits_acc_S. destruct (n / 10 =? 0) eqn:E.
    + apply Z.eqb_eq in E. cbn [parse_digits]. rewrite isdigit_digit.
      f_equal. pose proof (Z.div_mod n 10 ltac:(lia)). lia.
    + apply Z.eqb_neq in E. rewrite IH.
      * cbn [parse_digits]. rewrite isdigit_digit.
        f_equal. pose proof (Z.div_mod n 10 ltac:(lia)). lia.
      * rewrite Nat2Z.inj_succ, Z.pow_succ_r in Hn by lia.
        split; [apply Z.div_pos; lia|].
        apply Z.div_lt_upper_bound; lia.
Qed.

Lemma log2_fuel (n : Z) : 0 ≤ n → n < 2 ^ Z.of_nat (S (Z.to_nat (Z.log2 n))).
Proof.
  intros Hn. rewrite Nat2Z.inj_succ, Z2Nat.id by apply Z.log2_nonneg.
  destruct (decide (n = 0)) as [->|]; [done|].
  apply Z.log2_spec. lia.
Qed.

Lemma parse_digits_stop (t : list Z) (acc : Z) (found : bool) :
  (t = [] ∨ ∃ c t', t = c :: t' ∧ isdigit c = false) →
  parse_digits t acc found = (acc, found, t).
Proof. intros [->|(c & t' & -> & Hc)]; [done|]. simpl. by rewrite Hc. Qed.

Lemma decimal_head (n : Z) :
  ∃ c s, decimal n = c :: s ∧ isspace c = false.
Proof.
  unfold decimal. destruct (n <? 0).
  - by eexists _, _.
  - set (fuel := Z.to_nat (Z.log2 n)).
    pose proof (digits_acc_digits (S fuel) n [] ltac:(constructor)) as Hd.
    pose proof (digits_acc_nonempty fuel n []) as Hne.
    destruct (digits_acc (S fuel) n []) as [|c s]; [done|].
    exists c, s. split; [done|]. inversion Hd as [|? ? Hc _]; subst.
    unfold isdigit in Hc. apply andb_true_iff in Hc as [H1 H2].
    apply Z.leb_le in H1, H2. unfold isspace.
    apply orb_false_iff. split; [apply Z.eqb_neq; lia|].
    apply andb_false_iff. right. apply Z.leb_gt. lia.
Qed.

Lemma sentry_decimal (ws t : list Z) (n : Z) :
  blank ws →
  sentry {| good := true; rest := ws ++ decimal n ++ t |} = Some (decimal n ++ t).
Proof.
  intros Hws. unfold sentry. simpl. rewrite skipws_app by done.
  destruct (decimal_head n) as (c & s & -> & Hc).
  rewrite <- app_comm_cons. by rewrite skipws_head.
Qed.

Lemma extract_int_decimal (ws t : list Z) (n : Z) (old : option Z) :
  blank ws → in_int n →
  (t = [] ∨ ∃ c t', t = c :: t' ∧ isdigit c = false) →
  extract_int {| good := true; rest := ws ++ decimal n ++ t |} old
  = (Some n, after_token t).
Proof.
  intros Hws Hn Ht. unfold extract_int. rewrite sentry_decimal by done.
  unfold decimal, in_int, INT_MIN, INT_MAX in *.
  destruct (n <? 0) eqn:Hneg.
  - apply Z.ltb_lt in Hneg. rewrite <- app_comm_cons.
    rewrite digits_acc_app, <- app_assoc, <- digits_acc_app.
    rewrite parse_digits_acc by (split; [lia|apply log2_fuel; lia]).
    rewrite parse_digits_stop by done.
    rewrite Z.opp_involutive.
    repeat case_decide; try lia. done.
  - apply Z.ltb_ge in Hneg.
    set (fuel := Z.to_nat (Z.log2 n)).
    pose proof (digits_acc_digits (S fuel) n [] ltac:(constructor)) as Hd.
    pose proof (digits_acc_nonempty fuel n []) as Hne.
    assert (Hparse : parse_digits (digits_acc (S fuel) n [] ++ t) 0 false = (n, true, t)).
    { rewrite <- digits_acc_app.
      rewrite parse_digits_acc by (split; [lia|apply log2_fuel; lia]).
      by rewrite parse_digits_stop. }
    destruct (digits_acc (S fuel) n []) as [|c s]; [done|].
    inversion Hd as [|? ? Hc _]; subst.
    assert (c ≠ 45 ∧ c ≠ 43) as [H45 H43].
    { unfold isdigit in Hc. apply andb_true_iff in Hc as [H1 H2].
      apply Z.leb_le in H1, H2. lia. }
    rewrite <- app_comm_cons.
    assert (Hsign : match c :: s ++ t with
                    | 45 :: t0 => (true, t0)
                    | 43 :: t0 => (false, t0)
                    | _ => (false, c :: s ++ t)
                    end = (false, c :: s ++ t)).
    { destruct c as [|p|p]; try done.
      do 6 (destruct p as [p|p|]; try done). }
    rewrite Hsign. rewrite <- app_comm_cons in Hparse. rewrite Hparse.
    repeat case_decide; try lia. done.
Qed.

Lemma extract_int_failed (old : option Z) :
  extract_int failed_stream old = (old, failed_stream).
Proof. reflexivity. Qed.

Lemma extract_int_end (ws : list Z) (old : option Z) :
  blank ws → extract_int (after_token ws) old = (old, failed_stream).
Proof.
  intros Hws. unfold extract_int, sentry. destruct ws as [|c ws']; [done|].
  simpl good. simpl rest.
  pose proof (skipws_app (c :: ws') [] Hws) as E. rewrite app_nil_r in E.
  by rewrite E.
Qed.

Lemma extract_int_no_digit (ws t : list Z) (c : Z) (old : option Z) :
  blank ws → isspace c = false → isdigit c = false → c ≠ 43 → c ≠ 45 →
  extract_int {| good := true; rest := ws ++ c :: t |} old = (Some 0, failed_stream).
Proof.
  intros Hws Hsp Hdig H43 H45. unfold extract_int, sentry. simpl.
  rewrite skipws_app by done. rewrite skipws_head by done.
  assert (Hsign : match c :: t with
                  | 45 :: t0 => (true, t0)
                  | 43 :: t0 => (false, t0)
                  | _ => (false, c :: t)
                  end = (false, c :: t)).
  { destruct c as [|p|p]; try done.
    do 6 (destruct p as [p|p|]; try done). }
  rewrite Hsign. simpl. by rewrite Hdig.
Qed.

Lemma after_token_blank (ws t : list Z) :
  ws ≠ [] → after_token (ws ++ t) = {| good := true; rest := ws ++ t |}.
Proof. by destruct ws. Qed.

Lemma blank_stop (ws t : list Z) :
  blank ws → ws ≠ [] →
  ws ++ t = [] ∨ ∃ c t', ws ++ t = c :: t' ∧ isdigit c = false.
Proof.
  intros Hws Hne. destruct Hws as [|c ws Hc _]; [done|]. right.
  exists c, (ws ++ t). split; [done|].
  unfold isspace in Hc. unfold isdigit.
  apply andb_false_iff.
  apply orb_true_iff in Hc as [Hc|Hc].
  - apply Z.eqb_eq in Hc. left. apply Z.leb_gt. lia.
  - apply andb_true_iff in Hc as [_ Hc]. apply Z.leb_le in Hc. left. apply Z.leb_gt. lia.
Qed.

Lemma blank_space (ws t : list Z) :
  blank ws → ws ≠ [] →
  ws ++ t = [] ∨ ∃ c t', ws ++ t = c :: t' ∧ isspace c = true.
Proof.
  intros Hws Hne. destruct Hws as [|c ws Hc _]; [done|]. right. by exists c, (ws ++ t).
Qed.

(** ** readPGM and writePGM *)

Lemma length_resize (image : list Z) (n : nat) : length (resize image n) = n.
Proof. unfold resize. rewrite length_app, length_take, length_replicate. lia. Qed.

(** The header in any layout: the fields may be separated by any white
    space, the sample maximum by one character of any kind. *)
Lemma readPGM_layout (ws0 ws1 ws2 ws3 pixels image : list Z) (w h m c : Z)
    (width height : option Z) :
  blank ws0 → blank ws1 → blank ws2 → blank ws3 →
  ws1 ≠ [] → ws2 ≠ [] → ws3 ≠ [] →
  in_int w → in_int h → in_int m → isdigit c = false →
  readPGM (Some (ws0 ++ P5 ++ ws1 ++ decimal w ++ ws2 ++ decimal h ++ ws3
                 ++ decimal m ++ c :: pixels)) image width height
  = if decide (int_mul w h < 0) then Err length_error
    else Ok (true,
             stream_read {| good := true; rest := pixels |}
                         (resize image (Z.to_nat (int_mul w h))),
             Some w, Some h).
Proof.
  intros H0 H1 H2 H3 N1 N2 N3 Hw Hh Hm Hc. unfold readPGM.
  rewrite extract_string_magic by (done || by apply blank_space).
  case_decide; [done|].
  rewrite after_token_blank by done.
  rewrite extract_int_decimal by (done || by apply blank_stop).
  rewrite after_token_blank by done.
  rewrite extract_int_decimal by (done || by apply blank_stop).
  rewrite after_token_blank by done.
  rewrite extract_int_decimal by (done || (right; by exists c, pixels)).
  done.
Qed.

Lemma readPGM_pgm_file (ws0 ws1 ws2 ws3 pixels image : list Z) (w h m c : Z)
    (width height : option Z) :
  separators ws0 ws1 ws2 ws3 c → in_int w → in_int h → in_int m →
  readPGM (Some (pgm_file ws0 ws1 ws2 ws3 w h m c pixels)) image width height
  = if decide (int_mul w h < 0) then Err length_error
    else Ok (true,
             stream_read {| good := true; rest := pixels |}
                         (resize image (Z.to_nat (int_mul w h))),
             Some w, Some h).
Proof.
  intros (H0 & H1 & H2 & H3 & N1 & N2 & N3 & Hc) Hw Hh Hm.
  by apply readPGM_layout.
Qed.

Lemma writePGM_pgm_file (image : list Z) (width height : Z) :
  writePGM image width height = pgm_file [] [10] [32] [10] width height 255 10 image.
Proof. reflexivity. Qed.

Lemma separators_written : separators [] [10] [32] [10] 10.
Proof. by repeat split; repeat constructor. Qed.

Lemma in_int_255 : in_int 255.
Proof. unfold in_int, INT_MIN, INT_MAX. lia. Qed.

Lemma stream_read_exact (pixels old : list Z) (n : nat) :
  length pixels = n →
  stream_read {| good := true; rest := pixels |} (resize old n) = pixels.
Proof.
  intros Hn. unfold stream_read. simpl.
  rewrite length_resize, take_ge, drop_ge by (rewrite ?length_resize; lia).
  apply app_nil_r.
Qed.

Lemma stream_read_fill (pixels : list Z) (n : nat) :
  stream_read {| good := true; rest := pixels |} (resize [] n)
  = take n pixels ++ replicate (n - length pixels) 0.
Proof.
  unfold stream_read. simpl. rewrite length_resize. f_equal.
  unfold resize. rewrite take_nil, app_nil_l, drop_replicate, length_take.
  f_equal. simpl. lia.
Qed.

Lemma readPGM_no_magic (bytes image : list Z) (width height : option Z) :
  ¬ has_magic bytes → readPGM (Some bytes) image width height = Ok (false, image, width, height).
Proof.
  rewrite <- extract_string_P5. intros Hno. unfold readPGM.
  destruct (extract_string {| good := true; rest := bytes |}) as [format infile].
  simpl in Hno. by case_decide.
Qed.

Lemma readPGM_magic (bytes image image' : list Z) (width height width' height' : option Z)
    (ok : bool) :
  has_magic bytes →
  readPGM (Some bytes) image width height = Ok (ok, image', width', height') →
  ok = true ∧ is_Some width' ∧ is_Some height'.
Proof.
  rewrite <- extract_string_P5. unfold readPGM.
  destruct (extract_string {| good := true; rest := bytes |}) as [format infile].
  simpl. intros ->. case_decide; [done|].
  destruct (extract_int infile width) as [w f1].
  destruct (extract_int f1 height) as [h f2].
  destruct (extract_int f2 None) as [m f3].
  destruct w as [w|], h as [h|]; try done. case_decide; [done|].
  intros [= <- <- <- <-]. by repeat split.
Qed.

(** ** The codec between the two files *)

Lemma bind_Ok_inv {A B : Type} (m : res A) (k : A → res B) (b : B) :
  m ≫= k = Ok b → ∃ a, m = Ok a ∧ k a = Ok b.
Proof. destruct m as [a|f]; [by exists a|done]. Qed.

Lemma filter_nonzero (image : list Z) :
  0 ∉ image → filter (fun p => p ≠ 0) image = image.
Proof.
  intros H0. induction image as [|p image IH]; [done|].
  apply not_elem_of_cons in H0 as [Hp H0].
  rewrite filter_cons_True by done. by rewrite IH.
Qed.

Lemma encode_nonzero (root : Node) (image : list Z) :
  huffman_tree root →
  encode (generateHuffmanCodes root [] ∅) image
  = encode (generateHuffmanCodes root [] ∅) (filter (fun p => p ≠ 0) image).
Proof.
  intros Ht. rewrite !encode_concat.
  induction image as [|p image IH]; [done|].
  destruct (decide (p = 0)) as [->|Hp].
  - rewrite filter_cons_False by (intros H; by apply H).
    rewrite fmap_cons. unfold code_of at 1.
    by rewrite generate_no_code_for_zero.
  - rewrite filter_cons_True by done. rewrite !fmap_cons. simpl. by rewrite IH.
Qed.

Section Files.
Context `{PQ : PriorityQueue Node Compare} `{UI : UnorderedIteration}.

Lemma image_codes (image : list Z) (a b : Z) :
  a ∈ image → b ∈ image → a ≠ b →
  ∃ root,
    buildHuffmanTree (count_frequencies image) = Ok root ∧
    huffman_tree root ∧ is_internal root ∧
    Forall (fun p => leaf_at root (code_of (generateHuffmanCodes root [] ∅) p) p ∧ p ≠ 0)
           (filter (fun p => p ≠ 0) image).
Proof.
  intros Ha Hb Hab.
  destruct (buildHuffmanTree_spec (count_frequencies image)) as (root & Hbuild & Hspec).
  { intros E. apply count_frequencies_dom in Ha. rewrite E, lookup_empty in Ha.
    by destruct Ha. }
  pose proof (spec_build_huffman_tree _ _ Hspec) as Ht.
  pose proof (spec_build_NoDup _ _ Hspec) as Hnd.
  assert (Hsym : ∀ p, p ∈ image → p ∈ symbols_of root).
  { intros p Hp. rewrite (spec_build_symbols _ _ Hspec).
    apply count_frequencies_dom in Hp as [f Hf].
    apply list_elem_of_fmap. exists (p, f). split; [done|by apply elem_of_map_to_list]. }
  exists root. split; [done|]. split; [done|]. split.
  - destruct (huffman_tree_cases _ Ht) as [(p & f & ->)|Hint]; [|done].
    pose proof (Hsym a Ha) as Ha'. pose proof (Hsym b Hb) as Hb'.
    apply list_elem_of_singleton in Ha', Hb'. congruence.
  - apply Forall_forall. intros p Hp. apply list_elem_of_filter in Hp as [Hp0 Hp].
    split; [|done].
    destruct (symbol_leaf_at _ _ Ht (Hsym p Hp)) as [path Hpath].
    unfold code_of.
    by rewrite (generate_lookup_leaf root path p Hpath Ht Hnd Hp0 [] ∅).
Qed.

(** The two files of the codec and the decoded image, for an image of at
    least two values whose code bits fill whole bytes. *)
Lemma codec_files (image : list Z) (a b : Z) (width height : Z) (root : Node) :
  a ∈ image → b ∈ image → a ≠ b →
  buildHuffmanTree (count_frequencies image) = Ok root →
  (length (encode (generateHuffmanCodes root [] ∅) image) mod 8 = 0)%nat →
  Z.of_nat (length (encode (generateHuffmanCodes root [] ∅) image)) ≤ INT_MAX - 7 →
  in_int width → in_int height →
  ∃ file,
    writeCompressed (encode (generateHuffmanCodes root [] ∅) image) width height = Ok file ∧
    length file = (12 + length (encode (generateHuffmanCodes root [] ∅) image) / 8)%nat ∧
    readCompressed file
    = Ok (encode (generateHuffmanCodes root [] ∅) image, width, height,
          Z.of_nat (length (encode (generateHuffmanCodes root [] ∅) image))) ∧
    decompressImage (encode (generateHuffmanCodes root [] ∅) image) root width height
    = Ok (filter (fun p => p ≠ 0) image).
Proof.
  intros Ha Hb Hab Hbuild Hmod HL Hw Hh.
  destruct (image_codes image a b Ha Hb Hab) as (root' & Hbuild' & Ht & Hint & Hcodes).
  rewrite Hbuild in Hbuild'. injection Hbuild' as <-.
  set (codes := generateHuffmanCodes root [] ∅) in *.
  assert (Hbits : Forall is_bit (encode codes image)).
  { unfold codes. rewrite encode_nonzero by done. fold codes.
    rewrite encode_concat. apply Forall_concat, Forall_fmap.
    apply (Forall_impl _ _ _ Hcodes). intros p [Hp _]. by apply leaf_at_bits in Hp. }
  destruct (write_then_read (encode codes image) width height Hbits HL Hw Hh)
    as (file & Hwrite & Hlen & Hread & _).
  rewrite unpacked_whole in Hread by done.
  exists file. split; [done|]. split; [|split; [done|]].
  - rewrite Hlen. f_equal.
    pose proof (Nat.div_mod_eq (length (encode codes image)) 8) as Hdiv.
    rewrite Hmod, Nat.add_0_r in Hdiv.
    rewrite Hdiv at 1. rewrite (Nat.mul_comm 8), (Nat.add_comm _ 7), Nat.div_add by lia.
    by change (7 / 8)%nat with 0%nat.
  - pose proof (decompress_loop_paths root
                  ((fun p => (code_of codes p, p)) <$> filter (fun p => p ≠ 0) image)
                  Hint Ht) as Hdec.
    rewrite <- !list_fmap_compose in Hdec.
    change (fst ∘ (fun p => (code_of codes p, p))) with (code_of codes) in Hdec.
    change (snd ∘ (fun p : Z => (code_of codes p, p))) with (@id Z) in Hdec.
    rewrite list_fmap_id in Hdec.
    specialize (Hdec ltac:(by apply Forall_fmap) [] [] Hint).
    rewrite app_nil_r, <- encode_concat in Hdec. simpl in Hdec.
    unfold codes in Hdec. rewrite <- encode_nonzero in Hdec by done. fold codes in Hdec.
    unfold decompressImage. by rewrite Hdec.
Qed.

(** [main] once the image has been read. *)
Lemma main_after_read (input : list Z) (image : list Z) (a b : Z) (width height : Z)
    (root : Node) :
  readPGM (Some input) [] None None = Ok (true, image, Some width, Some height) →
  a ∈ image → b ∈ image → a ≠ b →
  buildHuffmanTree (count_frequencies image) = Ok root →
  (length (encode (generateHuffmanCodes root [] ∅) image) mod 8 = 0)%nat →
  Z.of_nat (length (encode (generateHuffmanCodes root [] ∅) image)) ≤ INT_MAX - 7 →
  in_int width → in_int height →
  ∃ huff,
    main (Some input)
    = Ok {| exit_code := 0;
            output_huff := Some huff;
            decompressed_pgm := Some (writePGM (filter (fun p => p ≠ 0) image) width height);
            sizes := Some (length input, length huff) |} ∧
    length huff = (12 + length (encode (generateHuffmanCodes root [] ∅) image) / 8)%nat.
Proof.
  intros Hin Ha Hb Hab Hbuild Hmod HL Hw Hh.
  destruct (codec_files image a b width height root Ha Hb Hab Hbuild Hmod HL Hw Hh)
    as (huff & Hwrite & Hlen & Hread & Hdec).
  exists huff. split; [|done].
  unfold main. rewrite Hin. cbv beta iota delta [mbind res_bind negb].
  rewrite Hbuild. cbv beta iota zeta. rewrite Hwrite. cbv beta iota.
  rewrite Hread. cbv beta iota. by rewrite Hdec.
Qed.

Lemma main_exit_0 (input : option (list Z)) (image : list Z) (width height : option Z)
    (r : run) :
  readPGM input [] None None = Ok (true, image, width, height) →
  main input = Ok r →
  exit_code r = 0 ∧ is_Some (output_huff r) ∧ is_Some (decompressed_pgm r).
Proof.
  intros Hin. unfold main. rewrite Hin. cbv beta iota delta [mbind res_bind negb].
  destruct width as [w|], height as [h|]; try done.
  destruct (buildHuffmanTree (count_frequencies image)) as [root|]; [|done].
  cbv beta iota zeta.
  destruct (writeCompressed _ w h) as [file|]; [|done]. cbv beta iota.
  destruct (readCompressed file) as [[[[data w'] h'] bitsCount]|]; [|done]. cbv beta iota.
  destruct (decompressImage data root w' h') as [decoded|]; [|done].
  intros [= <-]. by repeat split.
Qed.

End Files.

(** ** The container file on any input *)

Lemma bit_value_outcome (c : ascii) :
  match bit_value c with
  | Ok _ => is_bit c
  | Err f => f = invalid_argument ∧ ¬ is_bit c
  end.
Proof.
  unfold bit_value, is_bit. repeat case_decide; [by left|by right|].
  split; [done|]. by intros [|].
Qed.

Lemma mapM_bit_value (chunk : cstring) :
  match mapM bit_value chunk with
  | Ok _ => Forall is_bit chunk
  | Err f => f = invalid_argument ∧ ¬ Forall is_bit chunk
  end.
Proof.
  induction chunk as [|c chunk IH]; [simpl; by apply Forall_nil|]. simpl.
  pose proof (bit_value_outcome c) as Hc.
  destruct (bit_value c) as [b|f]; simpl.
  - destruct (mapM bit_value chunk) as [bits|f]; simpl.
    + by constructor.
    + destruct IH as [-> Hno]. split; [done|]. intros Hall. apply Hno. by inversion Hall.
  - destruct Hc as [-> Hno]. split; [done|]. intros Hall. apply Hno. by inversion Hall.
Qed.

Lemma bitset8_of_string_outcome (chunk : cstring) :
  match bitset8_of_string chunk with
  | Ok _ => Forall is_bit chunk
  | Err f => f = invalid_argument ∧ ¬ Forall is_bit chunk
  end.
Proof.
  unfold bitset8_of_string. pose proof (mapM_bit_value chunk) as H.
  by destruct (mapM bit_value chunk).
Qed.

Lemma ceil8_step (n : nat) : (0 < n → (n + 7) / 8 = S ((n - 8 + 7) / 8))%nat.
Proof.
  intros Hn. destruct (decide (n ≤ 8)%nat) as [Hle|Hgt].
  - replace (n - 8 + 7)%nat with 7%nat by lia. change (7 / 8)%nat with 0%nat.
    replace (n + 7)%nat with ((n - 1) + 1 * 8)%nat by lia.
    rewrite Nat.div_add by lia. rewrite Nat.div_small by lia. done.
  - replace (n + 7)%nat with ((n - 8 + 7) + 1 * 8)%nat by lia.
    rewrite Nat.div_add by lia. lia.
Qed.

Lemma write_payload_outcome (fuel : nat) : ∀ (i : nat) (s : cstring),
  (length s - i ≤ 8 * fuel)%nat →
  match write_payload fuel i s with
  | Ok payload => Forall is_bit (drop i s) ∧ (8 * length payload = 8 * ((length s - i + 7) / 8))%nat
  | Err f => f = invalid_argument ∧ ¬ Forall is_bit (drop i s)
  end.
Proof.
  induction fuel as [|fuel IH]; intros i s Hfuel.
  - rewrite write_payload_done by lia. rewrite drop_ge by lia.
    split; [constructor|]. replace (length s - i + 7)%nat with 7%nat by lia. done.
  - destruct (decide (i < length s)%nat) as [Hi|Hi].
    + rewrite write_payload_step by done.
      pose proof (bitset8_of_string_outcome (substr s i 8)) as Hchunk.
      specialize (IH (i + 8)%nat s ltac:(lia)).
      assert (Hsplit : drop i s = substr s i 8 ++ drop (i + 8) s).
      { unfold substr. by rewrite <- drop_drop, take_drop. }
      destruct (bitset8_of_string (substr s i 8)) as [byte|f];
        cbv beta iota delta [mbind res_bind].
      * destruct (write_payload fuel (i + 8) s) as [payload|f]; cbv beta iota.
        -- destruct IH as [Hrest Hlen]. split.
           ++ rewrite Hsplit. by apply Forall_app.
           ++ rewrite length_cons, (ceil8_step (length s - i)) by lia.
              replace (length s - i - 8)%nat with (length s - (i + 8))%nat by lia. lia.
        -- destruct IH as [-> Hno]. split; [done|]. rewrite Hsplit.
           intros Hall. by apply Forall_app in Hall as [_ Hall].
      * destruct Hchunk as [-> Hno]. split; [done|]. rewrite Hsplit.
        intros Hall. by apply Forall_app in Hall as [Hall _].
    + rewrite write_payload_done by lia. rewrite drop_ge by lia.
      split; [constructor|]. replace (length s - i + 7)%nat with 7%nat by lia. done.
Qed.

Lemma read_payload_bytes (k : nat) :
  ∀ (done_ tail : cstring) (payload : list Z) (fuel : nat) (bitsCount : Z),
    ((length tail + 7) / 8 = k)%nat → (k ≤ fuel)%nat →
    (if decide (tail = []) then bitsCount ≤ Z.of_nat (length done_)
     else bitsCount = Z.of_nat (length done_ + length tail)) →
    bitsCount ≤ INT_MAX - 7 →
    read_payload fuel (Z.of_nat (length done_)) bitsCount (done_ ++ tail) payload
    = if decide (k ≤ length payload)%nat
      then Ok (done_ ++ concat (bitset8_to_string <$> take k payload))
      else Err UndefinedBehaviour.
Proof.
  unfold INT_MAX.
  induction k as [|k IH]; intros done_ tail payload fuel bitsCount Hk Hfuel Hcount Hmax.
  - assert (tail = []) as ->.
    { destruct tail as [|c tail]; [done|].
      rewrite ceil8_step in Hk; [done|]. rewrite length_cons. lia. }
    rewrite decide_True in Hcount by done.
    rewrite read_payload_done by done. rewrite decide_True by lia.
    by rewrite take_0.
  - assert (Htail : tail ≠ []) by (intros ->; done).
    rewrite decide_False in Hcount by done.
    destruct fuel as [|fuel]; [lia|].
    destruct payload as [|byte payload].
    + rewrite decide_False by (simpl; lia). simpl.
      case_decide as Hlt; [done|].
      destruct tail; [done|]. rewrite length_cons in Hcount. lia.
    + rewrite read_payload_step
        by (destruct tail; [done|]; rewrite length_cons in Hcount; lia).
      rewrite string_replace_at_end. cbv beta iota delta [mbind res_bind].
      assert (Hnext : int_add (Z.of_nat (length done_)) 8
                      = Z.of_nat (length (done_ ++ bitset8_to_string byte))).
      { rewrite length_app. change (length (bitset8_to_string byte)) with 8%nat.
        rewrite int_add_exact; [lia|].
        destruct tail; [done|]. rewrite length_cons in Hcount.
        unfold in_int, INT_MIN, INT_MAX. lia. }
      rewrite Hnext.
      replace (done_ ++ bitset8_to_string byte ++ drop 8 tail)
        with ((done_ ++ bitset8_to_string byte) ++ drop 8 tail)
        by (by rewrite <- app_assoc).
      rewrite (IH (done_ ++ bitset8_to_string byte) (drop 8 tail) payload fuel bitsCount).
      * repeat case_decide; try (simpl in *; lia).
        -- by rewrite <- app_assoc.
        -- done.
      * rewrite length_drop. rewrite ceil8_step in Hk; [lia|].
        destruct tail; [done|]. rewrite length_cons. lia.
      * lia.
      * rewrite length_app. change (length (bitset8_to_string byte)) with 8%nat.
        case_decide as Hd.
        -- apply (f_equal length) in Hd. rewrite length_drop in Hd. simpl in Hd. lia.
        -- rewrite length_drop.
           assert (length (drop 8 tail) ≠ 0)%nat by (by destruct (drop 8 tail)).
           rewrite length_drop in *. lia.
      * done.
Qed.

(** ** Leaves of pixel 0 and the depth of a leaf *)

Lemma decompress_loop_zero_leaf (root t : Node) (path : cstring) (a : Z) :
  leaf_at t path a → a = 0 → huffman_tree t →
  ∀ (bit : ascii) (rest : cstring) (out : list Z),
    decompress_loop root (path ++ bit :: rest) t out = Err UndefinedBehaviour.
Proof.
  induction 1 as [a f|p f l r path a Hl IH|p f l r path a Hr IH];
    intros Ha Ht bit rest out.
  - simpl. by case_decide.
  - inversion Ht as [|? ? ? Hwl Hwr]; subst; [inversion Hl|].
    simpl. destruct Hwl as [pl fl|fl ll rl Hll Hrl].
    + inversion Hl; subst;
        try match goal with H : leaf_at nullptr _ _ |- _ => inversion H end.
      rewrite decide_False by (intros H; by apply H). simpl. by case_decide.
    + rewrite decide_False by (intros H; by apply H).
      apply IH; [done|by constructor].
  - inversion Ht as [|? ? ? Hwl Hwr]; subst; [inversion Hr|].
    simpl. destruct Hwr as [pr fr|fr lr rr Hlr Hrr].
    + inversion Hr; subst;
        try match goal with H : leaf_at nullptr _ _ |- _ => inversion H end.
      rewrite decide_False by (intros H; by apply H). simpl. by case_decide.
    + rewrite decide_False by (intros H; by apply H).
      apply IH; [done|by constructor].
Qed.

Lemma symbols_of_nonempty (t : Node) : huffman_tree t → symbols_of t ≠ [].
Proof.
  induction 1 as [p f|f l r Hl IHl Hr IHr]; [done|].
  rewrite symbols_of_internal by done. intros E. by apply app_eq_nil in E as [E _].
Qed.

Lemma leaf_depth (t : Node) (path : cstring) (a : Z) :
  huffman_tree t → leaf_at t path a → (length path < length (symbols_of t))%nat.
Proof.
  induction 1 as [p f|f l r Hl IHl Hr IHr] in path |- *; intros Hleaf.
  - inversion Hleaf; subst; [simpl; lia| |];
      match goal with H : leaf_at nullptr _ _ |- _ => inversion H end.
  - rewrite symbols_of_internal, length_app by done.
    pose proof (symbols_of_nonempty l Hl) as Hnl.
    pose proof (symbols_of_nonempty r Hr) as Hnr.
    assert (0 < length (symbols_of l))%nat by (destruct (symbols_of l); [done|simpl; lia]).
    assert (0 < length (symbols_of r))%nat by (destruct (symbols_of r); [done|simpl; lia]).
    inversion Hleaf; subst; [inversion Hl| |].
    + match goal with H : leaf_at l _ _ |- _ => apply IHl in H end. simpl. lia.
    + match goal with H : leaf_at r _ _ |- _ => apply IHr in H end. simpl. lia.
Qed.

(** * Further properties of the files and of main *)


(** X14.  [readPGM] reads back what [writePGM] wrote: for dimensions whose
    product (as an [int]) is the number of samples, the file written for an
    image is read as that image with those dimensions, and [true] is
    returned, whatever the reference parameters held before. *)
Theorem readPGM_reads_what_writePGM_wrote (image old : list Z) (w h : Z)
    (width height : option Z) :
  in_int w → in_int h → int_mul w h = Z.of_nat (length image) →
  readPGM (Some (writePGM image w h)) old width height = Ok (true, image, Some w, Some h).
Proof.
  intros Hw Hh Hn. rewrite writePGM_pgm_file.
  rewrite readPGM_pgm_file by (done || apply separators_written || apply in_int_255).
  case_decide; [lia|]. by rewrite stream_read_exact by lia.
Qed.

Lemma readPGM_reads_what_writePGM_wrote_witness :
  in_int 2 ∧ in_int 2 ∧ int_mul 2 2 = Z.of_nat (length [1; 2; 3; 4]) ∧
  readPGM (Some (writePGM [1; 2; 3; 4] 2 2)) [9] None None
  = Ok (true, [1; 2; 3; 4], Some 2, Some 2).
Proof.
  assert (Hw : in_int 2) by (unfold in_int, INT_MIN, INT_MAX; lia).
  assert (Hn : int_mul 2 2 = Z.of_nat (length [1; 2; 3; 4])) by (vm_compute; reflexivity).
  repeat (split; [assumption|]).
  exact (readPGM_reads_what_writePGM_wrote [1; 2; 3; 4] [9] 2 2 None None Hw Hw Hn).
Defined.


(** X15.  [readPGM], called as in [main] with an empty vector, accepts the
    header in any layout: any white space before "P5" and between the
    fields, any sample maximum, any one character that is not a digit after
    it.  The image has width times height samples: the bytes that follow,
    with zeros for the missing ones; bytes beyond that number are not
    read.  [true] is returned also when samples are missing. *)
Theorem readPGM_accepts_any_layout (ws0 ws1 ws2 ws3 pixels : list Z) (w h m c : Z)
    (width height : option Z) :
  separators ws0 ws1 ws2 ws3 c → in_int w → in_int h → in_int m →
  0 ≤ int_mul w h →
  readPGM (Some (pgm_file ws0 ws1 ws2 ws3 w h m c pixels)) [] width height
  = Ok (true,
        take (Z.to_nat (int_mul w h)) pixels
          ++ replicate (Z.to_nat (int_mul w h) - length pixels) 0,
        Some w, Some h).
Proof.
  intros Hsep Hw Hh Hm Hn. rewrite readPGM_pgm_file by done.
  case_decide; [lia|]. by rewrite stream_read_fill.
Qed.

Lemma readPGM_accepts_any_layout_witness :
  separators [32] [10] [32; 32] [13; 10] 10 ∧ in_int 3 ∧ in_int 2 ∧ in_int 15 ∧
  0 ≤ int_mul 3 2 ∧
  readPGM (Some (pgm_file [32] [10] [32; 32] [13; 10] 3 2 15 10 [1; 2; 3; 4])) [] None None
  = Ok (true,
        take (Z.to_nat (int_mul 3 2)) [1; 2; 3; 4]
          ++ replicate (Z.to_nat (int_mul 3 2) - length [1; 2; 3; 4]) 0,
        Some 3, Some 2).
Proof.
  assert (Hs : separators [32] [10] [32; 32] [13; 10] 10) by (unfold separators, blank; repeat split; try done; repeat constructor).
  assert (Hw : in_int 3) by (unfold in_int, INT_MIN, INT_MAX; lia).
  assert (Hh : in_int 2) by (unfold in_int, INT_MIN, INT_MAX; lia).
  assert (Hm : in_int 15) by (unfold in_int, INT_MIN, INT_MAX; lia).
  assert (Hn : 0 ≤ int_mul 3 2) by (vm_compute; discriminate).
  repeat (split; [assumption|]).
  exact (readPGM_accepts_any_layout [32] [10] [32; 32] [13; 10] [1; 2; 3; 4] 3 2 15 10
           None None Hs Hw Hh Hm Hn).
Defined.


(** X16.  [readPGM] returns [false] exactly when the file cannot be opened
    or its first word is not "P5"; the three reference parameters are then
    as they were.  Nothing after the first word makes it return [false]. *)
Theorem readPGM_false_iff (file : option (list Z)) (image image' : list Z)
    (width height width' height' : option Z) :
  readPGM file image width height = Ok (false, image', width', height')
  ↔ (file = None ∨ ∃ bytes, file = Some bytes ∧ ¬ has_magic bytes)
    ∧ image' = image ∧ width' = width ∧ height' = height.
Proof.
  split.
  - destruct file as [bytes|].
    + destruct (has_magic_dec bytes) as [Hyes|Hno].
      * intros Hread. by apply (readPGM_magic _ _ _ _ _ _ _ _ Hyes) in Hread as [[=] _].
      * rewrite readPGM_no_magic by done. intros [= <- <- <-]. split; [|done].
        right. by exists bytes.
    + intros [= <- <- <-]. split; [by left|done].
  - intros ([->|(bytes & -> & Hno)] & -> & -> & ->); [done|].
    by apply readPGM_no_magic.
Qed.


(** X17.  When the file ends after "P5", or the width field does not start
    with a digit or a sign, [readPGM] called as in [main] (with
    uninitialised [width] and [height]) has undefined behaviour: [height],
    or both, are read in [width * height] without having been written. *)
Theorem readPGM_malformed_size (ws t image : list Z) :
  blank ws →
  (t = [] ∨ (ws ≠ [] ∧ ∃ c t', t = c :: t' ∧ isspace c = false ∧ isdigit c = false
                                ∧ c ≠ 43 ∧ c ≠ 45)) →
  readPGM (Some (P5 ++ ws ++ t)) image None None = Err UndefinedBehaviour.
Proof.
  intros Hws Ht. unfold readPGM.
  change (P5 ++ ws ++ t) with ([] ++ P5 ++ ws ++ t).
  rewrite (extract_string_magic [] (ws ++ t)); [|constructor|].
  2:{ destruct ws as [|c ws'].
      - destruct Ht as [->|[Hne _]]; [by left|done].
      - right. exists c, (ws' ++ t). split; [done|]. by inversion Hws. }
  case_decide; [done|].
  destruct Ht as [->|(Hne & c & t' & -> & Hsp & Hdig & H43 & H45)].
  - rewrite app_nil_r, extract_int_end by done. by rewrite !extract_int_failed.
  - rewrite after_token_blank, extract_int_no_digit by done.
    by rewrite !extract_int_failed.
Qed.

Lemma readPGM_malformed_size_witness :
  blank [10] ∧
  ([120; 32; 50] = [] ∨
   ([10] ≠ [] ∧ ∃ c t', [120; 32; 50] = c :: t' ∧ isspace c = false ∧ isdigit c = false
                         ∧ c ≠ 43 ∧ c ≠ 45)) ∧
  readPGM (Some (P5 ++ [10] ++ [120; 32; 50])) [] None None = Err UndefinedBehaviour.
Proof.
  assert (Hws : blank [10]) by (repeat constructor).
  assert (Ht : [120; 32; 50] = [] ∨
               ([10] ≠ [] ∧ ∃ c t', [120; 32; 50] = c :: t' ∧ isspace c = false
                                     ∧ isdigit c = false ∧ c ≠ 43 ∧ c ≠ 45)).
  { right. split; [discriminate|]. exists 120, [32; 50]. repeat split; discriminate. }
  repeat (split; [assumption|]).
  exact (readPGM_malformed_size [10] [120; 32; 50] [] Hws Ht).
Defined.


(** X18.  When the width is a number and the height field does not start
    with a digit or a sign, [readPGM] stores 0 as the height, leaves the
    image empty and returns [true]. *)
Theorem readPGM_malformed_height (ws1 ws2 t image : list Z) (w c : Z)
    (width height : option Z) :
  blank ws1 → ws1 ≠ [] → blank ws2 → ws2 ≠ [] → in_int w →
  isspace c = false → isdigit c = false → c ≠ 43 → c ≠ 45 →
  readPGM (Some (P5 ++ ws1 ++ decimal w ++ ws2 ++ c :: t)) image width height
  = Ok (true, [], Some w, Some 0).
Proof.
  intros H1 N1 H2 N2 Hw Hsp Hdig H43 H45. unfold readPGM.
  change (P5 ++ ?x) with ([] ++ P5 ++ x).
  rewrite extract_string_magic by (by apply Forall_nil || by apply blank_space).
  case_decide; [done|].
  rewrite after_token_blank by done.
  rewrite extract_int_decimal by (done || by apply blank_stop).
  rewrite after_token_blank by done.
  rewrite extract_int_no_digit by done.
  rewrite extract_int_failed.
  unfold int_mul. rewrite Z.mul_0_r. by case_decide.
Qed.

Lemma readPGM_malformed_height_witness :
  blank [10] ∧ [10] ≠ [] ∧ blank [32] ∧ [32] ≠ [] ∧ in_int 12 ∧
  isspace 120 = false ∧ isdigit 120 = false ∧ 120 ≠ 43 ∧ 120 ≠ 45 ∧
  readPGM (Some (P5 ++ [10] ++ decimal 12 ++ [32] ++ 120 :: [10; 1; 2])) [7] None None
  = Ok (true, [], Some 12, Some 0).
Proof.
  assert (H1 : blank [10]) by (repeat constructor).
  assert (N1 : [10] ≠ []) by discriminate.
  assert (H2 : blank [32]) by (repeat constructor).
  assert (N2 : [32] ≠ []) by discriminate.
  assert (Hw : in_int 12) by (unfold in_int, INT_MIN, INT_MAX; lia).
  assert (Hsp : isspace 120 = false) by reflexivity.
  assert (Hdig : isdigit 120 = false) by reflexivity.
  assert (H43 : 120 ≠ 43) by discriminate.
  assert (H45 : 120 ≠ 45) by discriminate.
  repeat (split; [assumption|]).
  exact (readPGM_malformed_height [10] [32] [10; 1; 2] [7] 12 120 None None
           H1 N1 H2 N2 Hw Hsp Hdig H43 H45).
Defined.


(** X19.  Samples of value 0 are lost: when the image has at least two
    different values and its code bits fill whole bytes, the decompressed
    image is the image without its zeros, whatever the queue and the
    iteration order. *)
Theorem zero_samples_are_dropped
    `{PQ : PriorityQueue Node Compare} `{UI : UnorderedIteration}
    (image : list Z) (a b : Z) (width height : Z) (root : Node) :
  a ∈ image → b ∈ image → a ≠ b →
  buildHuffmanTree (count_frequencies image) = Ok root →
  (length (encode (generateHuffmanCodes root [] ∅) image) mod 8 = 0)%nat →
  Z.of_nat (length (encode (generateHuffmanCodes root [] ∅) image)) ≤ INT_MAX - 7 →
  in_int width → in_int height →
  compress_decompress image width height = Ok (filter (fun p => p ≠ 0) image).
Proof.
  intros Ha Hb Hab Hbuild Hmod HL Hw Hh.
  destruct (codec_files image a b width height root Ha Hb Hab Hbuild Hmod HL Hw Hh)
    as (file & Hwrite & _ & Hread & Hdec).
  unfold compress_decompress. rewrite Hbuild. cbv beta iota zeta delta [mbind res_bind].
  rewrite Hwrite. cbv beta iota. by rewrite Hread.
Qed.

Lemma zero_samples_are_dropped_witness :
  0 ∈ image_with_zero ∧ 5 ∈ image_with_zero ∧ 0 ≠ 5 ∧
  buildHuffmanTree (PQ := ListQueue) (UI := KeyOrder)
    (count_frequencies image_with_zero)
  = Ok tree_with_zero ∧
  (length (encode (generateHuffmanCodes tree_with_zero [] ∅) image_with_zero) mod 8 = 0)%nat ∧
  Z.of_nat (length (encode (generateHuffmanCodes tree_with_zero [] ∅)
                           image_with_zero)) ≤ INT_MAX - 7 ∧
  in_int 9 ∧ in_int 1 ∧
  compress_decompress (PQ := ListQueue) (UI := KeyOrder) image_with_zero 9 1
  = Ok (filter (fun p => p ≠ 0) image_with_zero).
Proof.
  assert (H0 : 0 ∈ image_with_zero)
    by (refine (bool_decide_unpack _ _); vm_compute; exact I).
  assert (H5 : 5 ∈ image_with_zero)
    by (refine (bool_decide_unpack _ _); vm_compute; exact I).
  assert (Hne : 0 ≠ 5) by discriminate.
  assert (Hb : buildHuffmanTree (PQ := ListQueue) (UI := KeyOrder)
                 (count_frequencies image_with_zero)
               = Ok tree_with_zero) by (vm_compute; reflexivity).
  assert (Hm : (length (encode (generateHuffmanCodes
                                  tree_with_zero [] ∅)
                               image_with_zero) mod 8 = 0)%nat)
    by (vm_compute; reflexivity).
  assert (Hl : Z.of_nat (length (encode (generateHuffmanCodes
                                           tree_with_zero [] ∅)
                                        image_with_zero)) ≤ INT_MAX - 7)
    by (vm_compute; discriminate).
  assert (Hw : in_int 9) by (unfold in_int, INT_MIN, INT_MAX; lia).
  assert (Hh : in_int 1) by (unfold in_int, INT_MIN, INT_MAX; lia).
  repeat (split; [assumption|]).
  exact (zero_samples_are_dropped (PQ := ListQueue) (UI := KeyOrder)
           image_with_zero 0 5 9 1 tree_with_zero
           H0 H5 Hne Hb Hm Hl Hw Hh).
Defined.


(** X20.  [main] from file to file.  For an input file in any layout whose
    samples are as many as width times height, have at least two different
    values and give code bits that fill whole bytes, [main] returns 0;
    output.huff has 12 bytes and one byte for every eight code bits;
    decompressed.pgm is the file [writePGM] makes of the samples other than
    0 and the dimensions read, with "255" as the sample maximum, whatever
    the input had; the two sizes printed are the lengths of the input file
    and of output.huff. *)
Theorem main_end_to_end
    `{PQ : PriorityQueue Node Compare} `{UI : UnorderedIteration}
    (ws0 ws1 ws2 ws3 image : list Z) (w h m c a b : Z) (root : Node) :
  separators ws0 ws1 ws2 ws3 c → in_int w → in_int h → in_int m →
  int_mul w h = Z.of_nat (length image) →
  a ∈ image → b ∈ image → a ≠ b →
  buildHuffmanTree (count_frequencies image) = Ok root →
  (length (encode (generateHuffmanCodes root [] ∅) image) mod 8 = 0)%nat →
  Z.of_nat (length (encode (generateHuffmanCodes root [] ∅) image)) ≤ INT_MAX - 7 →
  ∃ huff,
    main (Some (pgm_file ws0 ws1 ws2 ws3 w h m c image))
    = Ok {| exit_code := 0;
            output_huff := Some huff;
            decompressed_pgm := Some (writePGM (filter (fun p => p ≠ 0) image) w h);
            sizes := Some (length (pgm_file ws0 ws1 ws2 ws3 w h m c image), length huff) |} ∧
    length huff = (12 + length (encode (generateHuffmanCodes root [] ∅) image) / 8)%nat.
Proof.
  intros Hsep Hw Hh Hm Hn Ha Hb Hab Hbuild Hmod HL.
  apply (main_after_read _ image a b w h root); try done.
  rewrite readPGM_pgm_file by done. case_decide; [lia|].
  rewrite stream_read_fill, Hn, Nat2Z.id, take_ge, Nat.sub_diag by lia.
  by rewrite app_nil_r.
Qed.

Lemma main_end_to_end_witness :
  separators [] [10] [32] [13; 10] 10 ∧ in_int 12 ∧ in_int 1 ∧ in_int 15 ∧
  int_mul 12 1 = Z.of_nat (length sample_image) ∧
  3 ∈ sample_image ∧ 2 ∈ sample_image ∧ 3 ≠ 2 ∧
  buildHuffmanTree (PQ := ListQueue) (UI := KeyOrder) (count_frequencies sample_image)
    = Ok sample_tree ∧
  (length (encode (generateHuffmanCodes sample_tree [] ∅) sample_image) mod 8 = 0)%nat ∧
  Z.of_nat (length (encode (generateHuffmanCodes sample_tree [] ∅) sample_image))
    ≤ INT_MAX - 7 ∧
  ∃ huff,
    main (PQ := ListQueue) (UI := KeyOrder)
      (Some (pgm_file [] [10] [32] [13; 10] 12 1 15 10 sample_image))
    = Ok {| exit_code := 0;
            output_huff := Some huff;
            decompressed_pgm := Some (writePGM (filter (fun p => p ≠ 0) sample_image) 12 1);
            sizes := Some (length (pgm_file [] [10] [32] [13; 10] 12 1 15 10 sample_image),
                           length huff) |} ∧
    length huff
    = (12 + length (encode (generateHuffmanCodes sample_tree [] ∅) sample_image) / 8)%nat.
Proof.
  assert (Hs : separators [] [10] [32] [13; 10] 10) by (unfold separators, blank; repeat split; try done; repeat constructor).
  assert (Hx : in_int 15) by (unfold in_int, INT_MIN, INT_MAX; lia).
  assert (H3 : 3 ∈ sample_image) by (refine (bool_decide_unpack _ _); vm_compute; exact I).
  assert (H2 : 2 ∈ sample_image) by (refine (bool_decide_unpack _ _); vm_compute; exact I).
  assert (Hne : 3 ≠ 2) by discriminate.
  assert (Hb : buildHuffmanTree (PQ := ListQueue) (UI := KeyOrder)
                 (count_frequencies sample_image) = Ok sample_tree) by (vm_compute; reflexivity).
  assert (Hm : (length (encode (generateHuffmanCodes sample_tree [] ∅) sample_image)
                mod 8 = 0)%nat) by (vm_compute; reflexivity).
  assert (Hl : Z.of_nat (length (encode (generateHuffmanCodes sample_tree [] ∅) sample_image))
               ≤ INT_MAX - 7) by (vm_compute; discriminate).
  assert (Hw : in_int 12) by (unfold in_int, INT_MIN, INT_MAX; lia).
  assert (Hh : in_int 1) by (unfold in_int, INT_MIN, INT_MAX; lia).
  assert (Hn : int_mul 12 1 = Z.of_nat (length sample_image)) by (vm_compute; reflexivity).
  repeat (split; [assumption|]).
  exact (main_end_to_end (PQ := ListQueue) (UI := KeyOrder)
           [] [10] [32] [13; 10] sample_image 12 1 15 10 3 2 sample_tree
           Hs Hw Hh Hx Hn H3 H2 Hne Hb Hm Hl).
Defined.


(** X21.  For an input file as [writePGM] lays it out, whose samples have at
    least two different values, none of them 0, and give code bits that
    fill whole bytes, [main] returns 0 and decompressed.pgm is, byte for
    byte, the input file. *)
Theorem main_reproduces_its_input
    `{PQ : PriorityQueue Node Compare} `{UI : UnorderedIteration}
    (image : list Z) (w h a b : Z) (root : Node) :
  in_int w → in_int h → int_mul w h = Z.of_nat (length image) →
  a ∈ image → b ∈ image → a ≠ b → 0 ∉ image →
  buildHuffmanTree (count_frequencies image) = Ok root →
  (length (encode (generateHuffmanCodes root [] ∅) image) mod 8 = 0)%nat →
  Z.of_nat (length (encode (generateHuffmanCodes root [] ∅) image)) ≤ INT_MAX - 7 →
  ∃ r, main (Some (writePGM image w h)) = Ok r ∧
       exit_code r = 0 ∧ decompressed_pgm r = Some (writePGM image w h).
Proof.
  intros Hw Hh Hn Ha Hb Hab H0 Hbuild Hmod HL.
  destruct (main_after_read (writePGM image w h) image a b w h root) as (huff & Hmain & _);
    try done.
  { rewrite writePGM_pgm_file.
    rewrite readPGM_pgm_file by (done || apply separators_written || apply in_int_255).
    case_decide; [lia|]. by rewrite stream_read_exact by lia. }
  rewrite filter_nonzero in Hmain by done. by eexists.
Qed.

Lemma main_reproduces_its_input_witness :
  in_int 12 ∧ in_int 1 ∧ int_mul 12 1 = Z.of_nat (length sample_image) ∧
  3 ∈ sample_image ∧ 2 ∈ sample_image ∧ 3 ≠ 2 ∧ (0 ∉ sample_image) ∧
  buildHuffmanTree (PQ := ListQueue) (UI := KeyOrder) (count_frequencies sample_image)
    = Ok sample_tree ∧
  (length (encode (generateHuffmanCodes sample_tree [] ∅) sample_image) mod 8 = 0)%nat ∧
  Z.of_nat (length (encode (generateHuffmanCodes sample_tree [] ∅) sample_image))
    ≤ INT_MAX - 7 ∧
  ∃ r, main (PQ := ListQueue) (UI := KeyOrder) (Some (writePGM sample_image 12 1)) = Ok r ∧
       exit_code r = 0 ∧ decompressed_pgm r = Some (writePGM sample_image 12 1).
Proof.
  assert (H0 : 0 ∉ sample_image) by (refine (bool_decide_unpack _ _); vm_compute; exact I).
  assert (H3 : 3 ∈ sample_image) by (refine (bool_decide_unpack _ _); vm_compute; exact I).
  assert (H2 : 2 ∈ sample_image) by (refine (bool_decide_unpack _ _); vm_compute; exact I).
  assert (Hne : 3 ≠ 2) by discriminate.
  assert (Hb : buildHuffmanTree (PQ := ListQueue) (UI := KeyOrder)
                 (count_frequencies sample_image) = Ok sample_tree) by (vm_compute; reflexivity).
  assert (Hm : (length (encode (generateHuffmanCodes sample_tree [] ∅) sample_image)
                mod 8 = 0)%nat) by (vm_compute; reflexivity).
  assert (Hl : Z.of_nat (length (encode (generateHuffmanCodes sample_tree [] ∅) sample_image))
               ≤ INT_MAX - 7) by (vm_compute; discriminate).
  assert (Hw : in_int 12) by (unfold in_int, INT_MIN, INT_MAX; lia).
  assert (Hh : in_int 1) by (unfold in_int, INT_MIN, INT_MAX; lia).
  assert (Hn : int_mul 12 1 = Z.of_nat (length sample_image)) by (vm_compute; reflexivity).
  repeat (split; [assumption|]).
  exact (main_reproduces_its_input (PQ := ListQueue) (UI := KeyOrder)
           sample_image 12 1 3 2 sample_tree Hw Hh Hn H3 H2 Hne H0 Hb Hm Hl).
Defined.


(** X22.  [main] returns 1 exactly when the input file cannot be opened or
    its first word is not "P5"; it has then written neither output.huff nor
    decompressed.pgm and printed no size. *)
Theorem main_exit_code_1
    `{PQ : PriorityQueue Node Compare} `{UI : UnorderedIteration}
    (input : option (list Z)) (r : run) :
  main input = Ok r ∧ exit_code r = 1
  ↔ r = {| exit_code := 1; output_huff := None; decompressed_pgm := None; sizes := None |}
    ∧ (input = None ∨ ∃ bytes, input = Some bytes ∧ ¬ has_magic bytes).
Proof.
  split.
  - intros [Hmain Hexit]. destruct input as [bytes|].
    + destruct (has_magic_dec bytes) as [Hyes|Hno].
      * destruct (readPGM (Some bytes) [] None None) as [[[[ok image] w'] h']|f] eqn:Hin.
        -- pose proof (readPGM_magic _ _ _ _ _ _ _ _ Hyes Hin) as (-> & _).
           apply (main_exit_0 _ _ _ _ _ Hin) in Hmain as [Hzero _]. congruence.
        -- unfold main in Hmain. by rewrite Hin in Hmain.
      * unfold main in Hmain. rewrite readPGM_no_magic in Hmain by done.
        injection Hmain as <-. split; [done|]. right. by exists bytes.
    + injection Hmain as <-. split; [done|by left].
  - intros [-> Hin]. split; [|done].
    destruct Hin as [->|(bytes & -> & Hno)]; [done|].
    unfold main. by rewrite readPGM_no_magic.
Qed.


(** X23.  [main] does not return on an input whose header gives a product
    of width and height (as an [int]) that is negative or zero: for a
    negative one [resize] throws [std::length_error] in [readPGM]; for zero
    the image is empty and [top()] is called on an empty queue. *)
Theorem main_degenerate_size
    `{PQ : PriorityQueue Node Compare} `{UI : UnorderedIteration}
    (ws0 ws1 ws2 ws3 pixels : list Z) (w h m c : Z) :
  separators ws0 ws1 ws2 ws3 c → in_int w → in_int h → in_int m →
  int_mul w h ≤ 0 →
  main (Some (pgm_file ws0 ws1 ws2 ws3 w h m c pixels))
  = Err (if decide (int_mul w h < 0) then length_error else UndefinedBehaviour).
Proof.
  intros Hsep Hw Hh Hm Hn. unfold main. rewrite readPGM_pgm_file by done.
  case_decide; [done|].
  assert (int_mul w h = 0) as -> by lia.
  cbv beta iota delta [mbind res_bind negb].
  change (stream_read _ _) with (@nil Z).
  change (count_frequencies []) with (∅ : gmap Z Z).
  by rewrite buildHuffmanTree_empty.
Qed.

Lemma main_degenerate_size_witness :
  separators [] [10] [32] [10] 10 ∧ in_int 0 ∧ in_int 5 ∧ in_int 255 ∧
  int_mul 0 5 ≤ 0 ∧
  main (PQ := ListQueue) (UI := KeyOrder) (Some (pgm_file [] [10] [32] [10] 0 5 255 10 [1; 2]))
  = Err (if decide (int_mul 0 5 < 0) then length_error else UndefinedBehaviour).
Proof.
  assert (Hs : separators [] [10] [32] [10] 10) by (unfold separators, blank; repeat split; try done; repeat constructor).
  assert (Hw : in_int 0) by (unfold in_int, INT_MIN, INT_MAX; lia).
  assert (Hh : in_int 5) by (unfold in_int, INT_MIN, INT_MAX; lia).
  assert (Hm : in_int 255) by (unfold in_int, INT_MIN, INT_MAX; lia).
  assert (Hn : int_mul 0 5 ≤ 0) by (vm_compute; discriminate).
  repeat (split; [assumption|]).
  exact (main_degenerate_size (PQ := ListQueue) (UI := KeyOrder)
           [] [10] [32] [10] [1; 2] 0 5 255 10 Hs Hw Hh Hm Hn).
Defined.


(** X24.  On an input whose samples all have one value, [main] returns 0,
    output.huff is the twelve header bytes with a bit count of 0, and
    decompressed.pgm is a header without any sample. *)
Theorem main_single_value
    `{PQ : PriorityQueue Node Compare} `{UI : UnorderedIteration}
    (ws0 ws1 ws2 ws3 : list Z) (w h m c p : Z) (n : nat) :
  separators ws0 ws1 ws2 ws3 c → in_int w → in_int h → in_int m →
  int_mul w h = Z.of_nat (S n) →
  main (Some (pgm_file ws0 ws1 ws2 ws3 w h m c (replicate (S n) p)))
  = Ok {| exit_code := 0;
          output_huff := Some (int_bytes 0 ++ int_bytes w ++ int_bytes h);
          decompressed_pgm := Some (writePGM [] w h);
          sizes := Some (length (pgm_file ws0 ws1 ws2 ws3 w h m c (replicate (S n) p)),
                         12%nat) |}.
Proof.
  intros Hsep Hw Hh Hm Hn. unfold main. rewrite readPGM_pgm_file by done.
  case_decide; [lia|].
  rewrite stream_read_fill, Hn, Nat2Z.id, take_ge, length_replicate, Nat.sub_diag
    by (rewrite length_replicate; lia).
  rewrite app_nil_r. cbv beta iota delta [mbind res_bind negb].
  destruct (count_frequencies_single p n) as [f ->].
  rewrite buildHuffmanTree_singleton. cbv beta iota zeta.
  assert (Hcode : code_of (generateHuffmanCodes (new_Node p f) [] ∅) p = []).
  { unfold code_of. simpl. case_decide; [by rewrite lookup_insert_eq|by rewrite lookup_empty]. }
  assert (Henc : encode (generateHuffmanCodes (new_Node p f) [] ∅) (replicate (S n) p) = []).
  { rewrite encode_concat. generalize (S n). intros k.
    induction k as [|k IH]; [done|]. by rewrite replicate_S, fmap_cons, Hcode. }
  rewrite Henc.
  change (writeCompressed [] w h) with (Ok (int_bytes 0 ++ int_bytes w ++ int_bytes h ++ [])).
  cbv beta iota. rewrite readCompressed_header by (done || unfold in_int, INT_MIN, INT_MAX; lia).
  rewrite app_nil_r. reflexivity.
Qed.

Lemma main_single_value_witness :
  separators [] [10] [32] [10] 10 ∧ in_int 3 ∧ in_int 1 ∧ in_int 255 ∧
  int_mul 3 1 = Z.of_nat 3 ∧
  main (PQ := ListQueue) (UI := KeyOrder)
    (Some (pgm_file [] [10] [32] [10] 3 1 255 10 (replicate 3 7)))
  = Ok {| exit_code := 0;
          output_huff := Some (int_bytes 0 ++ int_bytes 3 ++ int_bytes 1);
          decompressed_pgm := Some (writePGM [] 3 1);
          sizes := Some (length (pgm_file [] [10] [32] [10] 3 1 255 10 (replicate 3 7)),
                         12%nat) |}.
Proof.
  assert (Hs : separators [] [10] [32] [10] 10) by (unfold separators, blank; repeat split; try done; repeat constructor).
  assert (Hw : in_int 3) by (unfold in_int, INT_MIN, INT_MAX; lia).
  assert (Hh : in_int 1) by (unfold in_int, INT_MIN, INT_MAX; lia).
  assert (Hm : in_int 255) by (unfold in_int, INT_MIN, INT_MAX; lia).
  assert (Hn : int_mul 3 1 = Z.of_nat 3) by (vm_compute; reflexivity).
  repeat (split; [assumption|]).
  exact (main_single_value (PQ := ListQueue) (UI := KeyOrder)
           [] [10] [32] [10] 3 1 255 10 7 2 Hs Hw Hh Hm Hn).
Defined.


(** X25.  [writeCompressed] either writes the file, of 12 bytes and one byte
    for every started group of eight characters, or throws
    [std::invalid_argument]; it throws exactly when some character of the
    string is neither '0' nor '1'. *)
Theorem writeCompressed_outcomes (s : cstring) (width height : Z) :
  match writeCompressed s width height with
  | Ok file => Forall is_bit s ∧ length file = (12 + (length s + 7) / 8)%nat
  | Err f => f = invalid_argument ∧ ¬ Forall is_bit s
  end.
Proof.
  unfold writeCompressed.
  pose proof (write_payload_outcome (length s) 0 s ltac:(lia)) as H.
  rewrite drop_0, Nat.sub_0_r in H.
  destruct (write_payload (length s) 0 s) as [payload|f];
    cbv beta iota delta [mbind res_bind]; [|done].
  destruct H as [Hbits Hlen]. split; [done|].
  rewrite !length_app, !length_int_bytes. lia.
Qed.


(** X26.  [readCompressed] on any file that starts with three [int]s, the
    first at most [INT_MAX - 7].  A negative bit count makes the string
    constructor throw [std::length_error].  Otherwise one byte is read for
    every started group of eight bits: when the file has them, the string
    returned is the eight bits of each of these bytes, most significant
    first, so its length is the bit count rounded up to a multiple of eight,
    and further bytes are not read; when a byte is missing, an uninitialised
    [char] is used. *)
Theorem readCompressed_any_file (bitsCount width height : Z) (payload : list Z) :
  in_int bitsCount → in_int width → in_int height → bitsCount ≤ INT_MAX - 7 →
  readCompressed (int_bytes bitsCount ++ int_bytes width ++ int_bytes height ++ payload)
  = if decide (bitsCount < 0) then Err length_error
    else if decide ((Z.to_nat bitsCount + 7) / 8 ≤ length payload)%nat
    then Ok (concat (bitset8_to_string <$> take ((Z.to_nat bitsCount + 7) / 8) payload),
             width, height, bitsCount)
    else Err UndefinedBehaviour.
Proof.
  intros Hb Hw Hh Hmax. case_decide as Hneg.
  - unfold readCompressed.
    rewrite read_int_bytes by done. cbv beta iota delta [mbind res_bind].
    rewrite read_int_bytes by done. cbv beta iota.
    rewrite read_int_bytes by done. cbv beta iota.
    by case_decide.
  - rewrite readCompressed_header by (done || lia).
    pose proof (read_payload_bytes ((Z.to_nat bitsCount + 7) / 8) []
                  (replicate (Z.to_nat bitsCount) ch0) payload (Z.to_nat bitsCount)
                  bitsCount) as Hread.
    rewrite length_replicate in Hread.
    change ([] ++ ?x) with x in Hread. change (Z.of_nat (length [])) with 0 in Hread.
    change (length (@nil ascii) + ?x)%nat with x in Hread.
    cbv beta iota delta [mbind res_bind]. rewrite Hread.
    + clear Hread. by destruct (decide _).
    + done.
    + pose proof (Nat.div_mod_eq (Z.to_nat bitsCount + 7) 8). lia.
    + case_decide as Hd.
      * apply (f_equal length) in Hd. rewrite length_replicate in Hd. simpl in Hd. lia.
      * lia.
    + done.
Qed.

Lemma readCompressed_any_file_witness :
  in_int 10 ∧ in_int 4 ∧ in_int 2 ∧ 10 ≤ INT_MAX - 7 ∧
  readCompressed (int_bytes 10 ++ int_bytes 4 ++ int_bytes 2 ++ [255; 84; 9])
  = if decide (10 < 0) then Err length_error
    else if decide ((Z.to_nat 10 + 7) / 8 ≤ length [255; 84; 9])%nat
    then Ok (concat (bitset8_to_string <$> take ((Z.to_nat 10 + 7) / 8) [255; 84; 9]),
             4, 2, 10)
    else Err UndefinedBehaviour.
Proof.
  assert (Hb : in_int 10) by (unfold in_int, INT_MIN, INT_MAX; lia).
  assert (Hw : in_int 4) by (unfold in_int, INT_MIN, INT_MAX; lia).
  assert (Hh : in_int 2) by (unfold in_int, INT_MIN, INT_MAX; lia).
  assert (Hm : 10 ≤ INT_MAX - 7) by (vm_compute; discriminate).
  repeat (split; [assumption|]).
  exact (readCompressed_any_file 10 4 2 [255; 84; 9] Hb Hw Hh Hm).
Defined.


(** X27.  A leaf of pixel 0 is a trap for [decompressImage]: on a tree of
    the construction, any string that continues after the path to such a
    leaf makes it dereference a null pointer, since the leaf is taken for an
    internal node. *)
Theorem zero_leaf_is_a_trap (root : Node) (path : cstring) :
  huffman_tree root → leaf_at root path 0 →
  ∀ (bit : ascii) (rest : cstring) (width height : Z),
    decompressImage (path ++ bit :: rest) root width height = Err UndefinedBehaviour.
Proof.
  intros Ht Hleaf bit rest width height. unfold decompressImage.
  by rewrite (decompress_loop_zero_leaf root root path 0 Hleaf eq_refl Ht).
Qed.

Lemma zero_leaf_is_a_trap_witness :
  huffman_tree tree_with_zero ∧
  leaf_at tree_with_zero [ch0] 0 ∧
  ∀ (bit : ascii) (rest_ : cstring) (width height : Z),
    decompressImage ([ch0] ++ bit :: rest_) tree_with_zero
                    width height
    = Err UndefinedBehaviour.
Proof.
  assert (Ht : huffman_tree tree_with_zero)
    by (repeat constructor).
  assert (Hl : leaf_at tree_with_zero [ch0] 0)
    by (apply leaf_left, leaf_here).
  repeat (split; [assumption|]).
  exact (zero_leaf_is_a_trap tree_with_zero [ch0] Ht Hl).
Defined.


(** X28.  Every code of the table is shorter than the number of entries of
    the frequency table: with the at most 256 values of an
    [unsigned char], no code has more than 255 bits. *)
Theorem code_length_bound
    `{PQ : PriorityQueue Node Compare} `{UI : UnorderedIteration}
    (freq : gmap Z Z) (root : Node) (p : Z) (code : cstring) :
  buildHuffmanTree freq = Ok root →
  generateHuffmanCodes root [] ∅ !! p = Some code →
  (length code < size freq)%nat.
Proof.
  intros Hbuild Hcode.
  destruct (decide (freq = ∅)) as [->|Hne].
  { by rewrite buildHuffmanTree_empty in Hbuild. }
  destruct (buildHuffmanTree_spec freq Hne) as (root' & Hbuild' & Hspec).
  rewrite Hbuild in Hbuild'. injection Hbuild' as <-.
  pose proof (spec_build_huffman_tree _ _ Hspec) as Ht.
  apply (generate_lookup _ Ht) in Hcode as [E|(_ & path & -> & Hleaf)];
    [by rewrite lookup_empty in E|].
  apply (leaf_depth _ _ _ Ht) in Hleaf.
  rewrite (spec_build_symbols _ _ Hspec), length_fmap, length_map_to_list in Hleaf.
  by simpl.
Qed.

Lemma code_length_bound_witness :
  buildHuffmanTree (PQ := ListQueue) (UI := KeyOrder) (count_frequencies sample_image)
    = Ok sample_tree ∧
  generateHuffmanCodes sample_tree [] ∅ !! 2 = Some [ch0; ch1] ∧
  (length [ch0; ch1] < size (count_frequencies sample_image))%nat.
Proof.
  assert (Hb : buildHuffmanTree (PQ := ListQueue) (UI := KeyOrder)
                 (count_frequencies sample_image) = Ok sample_tree) by (vm_compute; reflexivity).
  assert (Hc : generateHuffmanCodes sample_tree [] ∅ !! 2 = Some [ch0; ch1])
    by (vm_compute; reflexivity).
  repeat (split; [assumption|]).
  exact (code_length_bound (PQ := ListQueue) (UI := KeyOrder)
           (count_frequencies sample_image) sample_tree 2 [ch0; ch1] Hb Hc).
Defined.
